(** * bit_vector.h: a packed, fixed-size bit vector

    Shallow embedding of [src/algorithms/bit_vector.h] and the properties of
    its public contract.

    Data are modelled as the header has them:
    - [size_t] is a 64-bit unsigned integer, a [Z] in [0, 2^64) whose
      arithmetic wraps ([size_wrap]);
    - [unsigned char] is a [Z] in [0, 256); a store into the buffer truncates
      ([to_uchar]);
    - [std::vector<unsigned char>] is a [list Z], read and written by index;
      [operator[]] outside the buffer is undefined behaviour, which the model
      keeps as an outcome of its own instead of inventing a value;
    - a member function is a state-passing computation that ends in a value,
      in a thrown exception or in undefined behaviour.

    Allocation is assumed to succeed (no [std::bad_alloc]). The length checks
    of the containers are deterministic and are kept: [std::string::reserve]
    throws [std::length_error] above [max_size()]; the constructor's
    [resize] asks for at most [2^61 - 1] units, below
    [std::vector::max_size()], and never throws it. *)

From Stdlib Require Import ZArith Lia String Ascii.
From stdpp Require Import base list.

Local Open Scope Z_scope.

(** [lia] also decides goals with division and remainder by a constant. *)
Ltac Zify.zify_post_hook ::= Z.to_euclidean_division_equations.

(** ** Machine integers *)

Definition SIZE_WIDTH : Z := 64.
Definition SIZE_MAX : Z := 2 ^ SIZE_WIDTH - 1.

(** Reduction of a mathematical integer to [size_t]. *)
Definition size_wrap (z : Z) : Z := z mod 2 ^ SIZE_WIDTH.

Definition is_size_t (z : Z) : Prop := 0 <= z <= SIZE_MAX.

(** Conversion of an [int] to [unsigned char] (the implicit conversion of a
    compound assignment on a buffer element). *)
Definition to_uchar (z : Z) : Z := z mod 256.

Definition is_uchar (b : Z) : Prop := 0 <= b < 256.

(** [PTRDIFF_MAX], the largest request the allocator of [char] accepts. *)
Definition PTRDIFF_MAX : Z := 2 ^ (SIZE_WIDTH - 1) - 1.

(** [std::string::max_size()], a constant of the implementation: in
    libstdc++ [(allocator max_size - 1) / 2], that is [2^62 - 1]. The proofs
    use only that it lies below [SIZE_MAX - 7] ([STRING_MAX_SIZE_bound]). *)
Definition STRING_MAX_SIZE : Z := (PTRDIFF_MAX - 1) / 2.

(** ** Outcomes and the method monad *)

Inductive exception : Type :=
| out_of_range        (* throw std::out_of_range("position out of range") *)
| length_error.       (* std::length_error, thrown by std::string::reserve *)

Inductive outcome (A : Type) : Type :=
| Returns (a : A)        (* normal return *)
| Throws (e : exception) (* an exception leaves the function *)
| Undefined.             (* std::vector::operator[] outside the buffer *)

Arguments Returns {A} a.
Arguments Throws {A} e.
Arguments Undefined {A}.

(** class bit_vector { std::vector<unsigned char> data; size_t num_bits; } *)
Record bit_vector : Type := mk_bit_vector {
  data : list Z;
  num_bits : Z
}.

(** A member function: from the object before the call to the outcome and
    the object after it. *)
Definition method (A : Type) : Type := bit_vector -> outcome A * bit_vector.

Definition ret {A} (a : A) : method A := fun v => (Returns a, v).

Definition bind {A B} (m : method A) (k : A -> method B) : method B :=
  fun v =>
    match m v with
    | (Returns a, v') => k a v'
    | (Throws e, v') => (Throws e, v')
    | (Undefined, v') => (Undefined, v')
    end.

Notation "'let*' x ':=' m 'in' k" := (bind m (fun x => k))
  (at level 10, x name, m at level 100, k at level 200).

Definition throw {A} (e : exception) : method A := fun v => (Throws e, v).

(** Read of the member [num_bits]. *)
Definition get_num_bits : method Z := fun v => (Returns (num_bits v), v).

(** [data[i]] as an rvalue. *)
Definition data_at (i : Z) : method Z :=
  fun v =>
    match data v !! Z.to_nat i with
    | Some b => (Returns b, v)
    | None => (Undefined, v)
    end.

(** [data[i] = x], with the conversion of [x] to [unsigned char]. *)
Definition data_store (i : Z) (x : Z) : method unit :=
  fun v =>
    match data v !! Z.to_nat i with
    | Some _ =>
        (Returns tt,
         {| data := <[Z.to_nat i := to_uchar x]> (data v);
            num_bits := num_bits v |})
    | None => (Undefined, v)
    end.

(** [std::string out; out.reserve(n);] on an empty string: the request is
    checked against [max_size()]. *)
Definition string_reserve (n : Z) : method unit :=
  if n >? STRING_MAX_SIZE then throw length_error else ret tt.

(** ** The class *)

Module BitVector.

Definition BITS_PER_BYTE : Z := 8.

(** [(1 << (pos % BITS_PER_BYTE))], an [int] between 1 and 128. *)
Definition mask (pos : Z) : Z := Z.shiftl 1 (pos mod BITS_PER_BYTE).

(** [bit_vector::bit_vector(size_t size) : num_bits(size)
      { data.resize((size + BITS_PER_BYTE - 1) / BITS_PER_BYTE, 0); }]
    The sum and the difference are [size_t] operations and wrap. *)
Definition ctor (size : Z) : bit_vector :=
  {| data :=
       replicate
         (Z.to_nat
            (size_wrap (size_wrap (size + BITS_PER_BYTE) - 1) / BITS_PER_BYTE))
         0;
     num_bits := size |}.

(** [void bit_vector::set(size_t pos)] *)
Definition set (pos : Z) : method unit :=
  let* n := get_num_bits in
  if pos >=? n then throw out_of_range
  else
    let* b := data_at (pos / BITS_PER_BYTE) in
    data_store (pos / BITS_PER_BYTE) (Z.lor b (mask pos)).

(** [void bit_vector::clear(size_t pos)] *)
Definition clear (pos : Z) : method unit :=
  let* n := get_num_bits in
  if pos >=? n then throw out_of_range
  else
    let* b := data_at (pos / BITS_PER_BYTE) in
    data_store (pos / BITS_PER_BYTE) (Z.land b (Z.lnot (mask pos))).

(** [void bit_vector::toggle(size_t pos)] *)
Definition toggle (pos : Z) : method unit :=
  let* n := get_num_bits in
  if pos >=? n then throw out_of_range
  else
    let* b := data_at (pos / BITS_PER_BYTE) in
    data_store (pos / BITS_PER_BYTE) (Z.lxor b (mask pos)).

(** [bool bit_vector::test(size_t pos) const] *)
Definition test (pos : Z) : method bool :=
  let* n := get_num_bits in
  if pos >=? n then throw out_of_range
  else
    let* b := data_at (pos / BITS_PER_BYTE) in
    ret (negb (Z.land b (mask pos) =? 0)).

(** [size_t bit_vector::size() const] *)
Definition size : method Z := get_num_bits.

(** The loop of [count]: [iters] iterations are left, the loop variable is
    [i] and the running total is [cnt]. *)
Fixpoint count_loop (iters : nat) (i cnt : Z) : method Z :=
  match iters with
  | O => ret cnt
  | S iters' =>
      let* b := test i in
      count_loop iters' (size_wrap (i + 1))
        (if b then size_wrap (cnt + 1) else cnt)
  end.

(** [size_t bit_vector::count() const]:
    [for (size_t i = 0; i < num_bits; ++i)] runs its body [num_bits]
    times, for [i = 0, ..., num_bits - 1]. *)
Definition count : method Z :=
  let* n := get_num_bits in
  count_loop (Z.to_nat n) 0 0.

(** The loop of [to_string]; [out += c] appends one character. *)
Fixpoint to_string_loop (iters : nat) (i : Z) (out : string) : method string :=
  match iters with
  | O => ret out
  | S iters' =>
      let* b := test i in
      to_string_loop iters' (size_wrap (i + 1))
        (String.append out
           (String (if b then "1"%char else "0"%char) EmptyString))
  end.

(** [std::string bit_vector::to_string() const] *)
Definition to_string : method string :=
  let* n := get_num_bits in
  let* _ := string_reserve n in
  to_string_loop (Z.to_nat n) 0 EmptyString.

End BitVector.

(** ** Calls of the public interface *)

Inductive call : Type :=
| CallSet (pos : Z)
| CallClear (pos : Z)
| CallToggle (pos : Z)
| CallTest (pos : Z)
| CallSize
| CallCount
| CallToString.

Inductive value : Type :=
| VVoid
| VBool (b : bool)
| VSize (n : Z)
| VString (s : string).

Definition run_call (c : call) : method value :=
  match c with
  | CallSet pos => let* _ := BitVector.set pos in ret VVoid
  | CallClear pos => let* _ := BitVector.clear pos in ret VVoid
  | CallToggle pos => let* _ := BitVector.toggle pos in ret VVoid
  | CallTest pos => let* b := BitVector.test pos in ret (VBool b)
  | CallSize => let* n := BitVector.size in ret (VSize n)
  | CallCount => let* n := BitVector.count in ret (VSize n)
  | CallToString => let* s := BitVector.to_string in ret (VString s)
  end.

(** The argument of a call is a [size_t]. *)
Definition call_ok (c : call) : Prop :=
  match c with
  | CallSet pos | CallClear pos | CallToggle pos | CallTest pos => is_size_t pos
  | CallSize | CallCount | CallToString => True
  end.

(** The object after a sequence of calls. A caller that catches the
    exception goes on with the object as the throwing call left it. *)
Fixpoint run_calls (cs : list call) (v : bit_vector) : bit_vector :=
  match cs with
  | [] => v
  | c :: cs' => run_calls cs' (snd (run_call c v))
  end.

(** The outcomes of the calls of a sequence, in order. *)
Fixpoint outcomes (cs : list call) (v : bit_vector) : list (outcome value) :=
  match cs with
  | [] => []
  | c :: cs' => fst (run_call c v) :: outcomes cs' (snd (run_call c v))
  end.

(** The objects a program can hold: a constructed vector, and the vector
    after a call whose behaviour is defined. *)
Inductive reachable : bit_vector -> Prop :=
| reachable_ctor size :
    is_size_t size -> reachable (BitVector.ctor size)
| reachable_call v c :
    reachable v -> call_ok c -> fst (run_call c v) <> Undefined ->
    reachable (snd (run_call c v)).

(** ** The contract's vocabulary *)

(** The least [q] with [n <= d * q]: [ceil (n / d)]. *)
Definition ceil_div (n d : Z) : Z :=
  n / d + (if n mod d =? 0 then 0 else 1).

(** The bit the layout assigns to position [p]: bit [p mod 8] of byte
    [p / 8], [false] outside the buffer. *)
Definition get_bit (v : bit_vector) (p : Z) : bool :=
  match data v !! Z.to_nat (p / BitVector.BITS_PER_BYTE) with
  | Some b => Z.testbit b (p mod BitVector.BITS_PER_BYTE)
  | None => false
  end.

(** [Test(p) == true], as a caller observes it. *)
Definition test_true (v : bit_vector) (p : Z) : bool :=
  match fst (BitVector.test p v) with
  | Returns true => true
  | _ => false
  end.

(** The number of positions of [0, capacity) at which [Test] is true. *)
Definition set_positions (v : bit_vector) : Z :=
  Z.of_nat (length (List.filter (test_true v) (seqZ 0 (num_bits v)))).

(** The members have values of their C++ types. *)
Definition well_typed (v : bit_vector) : Prop :=
  is_size_t (num_bits v) /\ Forall is_uchar (data v).

(** [storage.length == ceil(capacity / 8)]. *)
Definition storage_ok (v : bit_vector) : Prop :=
  Z.of_nat (length (data v)) = ceil_div (num_bits v) 8.

(** The bits of the last storage unit past the capacity are 0. *)
Definition padding_zero (v : bit_vector) : Prop :=
  forall p, num_bits v <= p < 8 * Z.of_nat (length (data v)) ->
            get_bit v p = false.

(** The representation invariant the operations rely on. *)
Definition wf (v : bit_vector) : Prop := well_typed v /\ storage_ok v.

(** The structural invariants of the data model. *)
Definition invariant (v : bit_vector) : Prop := wf v /\ padding_zero v.

(** The text of the positions [i, i + n): one digit per position. *)
Fixpoint digits (v : bit_vector) (n : nat) (i : Z) : string :=
  match n with
  | O => EmptyString
  | S n' =>
      String (if test_true v i then "1"%char else "0"%char)
        (digits v n' (i + 1))
  end.

(** [v'] is [v] with the bit at [pos] replaced by [f] of its old value and
    nothing else changed. *)
Definition updates (f : bool -> bool) (pos : Z) (v v' : bit_vector) : Prop :=
  num_bits v' = num_bits v
  /\ length (data v') = length (data v)
  /\ (Forall is_uchar (data v) -> Forall is_uchar (data v'))
  /\ forall q, 0 <= q ->
       get_bit v' q = if q =? pos then f (get_bit v pos) else get_bit v q.

Ltac unfold_method :=
  unfold BitVector.set, BitVector.clear, BitVector.toggle, BitVector.test,
    BitVector.size, BitVector.count, BitVector.to_string,
    bind, ret, throw, get_num_bits, data_at, data_store.

(** The three mutators, each with what it does to the bit it addresses. *)
Inductive mutator : (Z -> method unit) -> (bool -> bool) -> Prop :=
| mutator_set : mutator BitVector.set (fun _ => true)
| mutator_clear : mutator BitVector.clear (fun _ => false)
| mutator_toggle : mutator BitVector.toggle negb.

(** The number of ['1'] characters of a text. *)
Fixpoint ones (s : string) : Z :=
  match s with
  | EmptyString => 0
  | String c s' => (if Ascii.eqb c "1"%char then 1 else 0) + ones s'
  end.

(** ** Arithmetic of the layout *)

Lemma ceil_div_spec n q : ceil_div n 8 = q <-> 8 * (q - 1) < n <= 8 * q.
Proof.
  unfold ceil_div.
  destruct (Z.eqb_spec (n mod 8) 0); lia.
Qed.

Lemma size_wrap_small z : is_size_t z -> size_wrap z = z.
Proof.
  unfold is_size_t, size_wrap, SIZE_MAX, SIZE_WIDTH. intros H.
  apply Z.mod_small. lia.
Qed.

(** Below the last seven values of [size_t] the constructor's rounding
    expression does not wrap and is the ceiling. *)
Lemma ctor_rounding size :
  0 <= size <= SIZE_MAX - 7 ->
  size_wrap (size_wrap (size + BitVector.BITS_PER_BYTE) - 1)
    / BitVector.BITS_PER_BYTE = ceil_div size 8.
Proof.
  unfold BitVector.BITS_PER_BYTE. intros H.
  unfold size_wrap. rewrite Zminus_mod_idemp_l.
  fold (size_wrap (size + 8 - 1)).
  rewrite size_wrap_small by (unfold is_size_t; lia).
  symmetry. apply ceil_div_spec. lia.
Qed.

Lemma offset_range pos : 0 <= pos mod BitVector.BITS_PER_BYTE < 8.
Proof. unfold BitVector.BITS_PER_BYTE. lia. Qed.

(** Distinct positions have distinct (byte index, bit offset) pairs. *)
Lemma position_injective p q :
  0 <= p -> 0 <= q -> p <> q ->
  Z.to_nat (p / BitVector.BITS_PER_BYTE) <> Z.to_nat (q / BitVector.BITS_PER_BYTE)
  \/ p mod BitVector.BITS_PER_BYTE <> q mod BitVector.BITS_PER_BYTE.
Proof.
  unfold BitVector.BITS_PER_BYTE. intros Hp Hq Hne.
  destruct (Z.eq_dec (p / 8) (q / 8)) as [E|E]; [right|left]; lia.
Qed.

(** ** Bits of a storage unit *)

Lemma mask_bits pos j :
  Z.testbit (BitVector.mask pos) j = (pos mod BitVector.BITS_PER_BYTE =? j).
Proof.
  unfold BitVector.mask. rewrite Z.shiftl_1_l.
  apply Z.pow2_bits_eqb. apply offset_range.
Qed.

Lemma mask_range pos : 1 <= BitVector.mask pos <= 128.
Proof.
  unfold BitVector.mask. rewrite Z.shiftl_1_l.
  pose proof (offset_range pos) as H.
  split.
  - apply (Z.pow_le_mono_r 2 0); lia.
  - change 128 with (2 ^ 7). apply Z.pow_le_mono_r; lia.
Qed.

Lemma to_uchar_range x : is_uchar (to_uchar x).
Proof. unfold is_uchar, to_uchar. lia. Qed.

Lemma to_uchar_bits x j : j < 8 -> Z.testbit (to_uchar x) j = Z.testbit x j.
Proof.
  intros H. unfold to_uchar. change 256 with (2 ^ 8).
  apply Z.mod_pow2_bits_low. lia.
Qed.

Lemma uchar_high_bits b j : is_uchar b -> 8 <= j -> Z.testbit b j = false.
Proof.
  unfold is_uchar. intros Hb Hj.
  rewrite <- (Z.mod_small b (2 ^ 8)) by (change (2 ^ 8) with 256; lia).
  apply Z.mod_pow2_bits_high. lia.
Qed.

(** The truncation of a store is the identity on a value whose bits above
    the eighth are already clear. *)
Lemma to_uchar_id x :
  (forall j, 8 <= j -> Z.testbit x j = false) -> to_uchar x = x.
Proof.
  intros H. apply Z.bits_inj'. intros j Hj.
  destruct (Z.lt_ge_cases j 8) as [Hlt|Hge].
  - by apply to_uchar_bits.
  - rewrite H by done. unfold to_uchar. change 256 with (2 ^ 8).
    apply Z.mod_pow2_bits_high. lia.
Qed.

(** The result of [(b & mask) != 0] is the bit of [b] the mask selects. *)
Lemma test_mask b pos :
  negb (Z.land b (BitVector.mask pos) =? 0)
  = Z.testbit b (pos mod BitVector.BITS_PER_BYTE).
Proof.
  pose proof (offset_range pos) as Hk.
  destruct (Z.testbit b (pos mod BitVector.BITS_PER_BYTE)) eqn:Hb.
  - destruct (Z.eqb_spec (Z.land b (BitVector.mask pos)) 0) as [E|E]; [|done].
    apply (f_equal (fun x => Z.testbit x (pos mod BitVector.BITS_PER_BYTE))) in E.
    rewrite Z.land_spec, mask_bits, Hb, Z.eqb_refl, Z.bits_0 in E. done.
  - replace (Z.land b (BitVector.mask pos)) with 0; [done|].
    apply Z.bits_inj'. intros j Hj.
    rewrite Z.bits_0, Z.land_spec, mask_bits.
    destruct (Z.eqb_spec (pos mod BitVector.BITS_PER_BYTE) j) as [<-|];
      [by rewrite Hb | by rewrite andb_false_r].
Qed.

Lemma set_bits b pos j :
  j < 8 ->
  Z.testbit (to_uchar (Z.lor b (BitVector.mask pos))) j
  = if pos mod BitVector.BITS_PER_BYTE =? j then true else Z.testbit b j.
Proof.
  intros Hj. rewrite to_uchar_bits, Z.lor_spec, mask_bits by done.
  destruct (_ =? _); [apply orb_true_r | apply orb_false_r].
Qed.

Lemma clear_bits b pos j :
  0 <= j < 8 ->
  Z.testbit (to_uchar (Z.land b (Z.lnot (BitVector.mask pos)))) j
  = if pos mod BitVector.BITS_PER_BYTE =? j then false else Z.testbit b j.
Proof.
  intros Hj.
  rewrite to_uchar_bits, Z.land_spec, Z.lnot_spec, mask_bits by lia.
  destruct (_ =? _); [apply andb_false_r | apply andb_true_r].
Qed.

Lemma toggle_bits b pos j :
  j < 8 ->
  Z.testbit (to_uchar (Z.lxor b (BitVector.mask pos))) j
  = if pos mod BitVector.BITS_PER_BYTE =? j
    then negb (Z.testbit b j) else Z.testbit b j.
Proof.
  intros Hj. rewrite to_uchar_bits, Z.lxor_spec, mask_bits by done.
  destruct (_ =? _); [apply xorb_true_r | apply xorb_false_r].
Qed.

(** Every [int] the three updates compute lies in [-129, 255]: no operation
    on [int] overflows, so the unbounded bit operations are the machine's. *)
Lemma int_intermediates b pos :
  is_uchar b ->
  0 <= Z.lor b (BitVector.mask pos) <= 255
  /\ -129 <= Z.lnot (BitVector.mask pos) <= -2
  /\ 0 <= Z.land b (Z.lnot (BitVector.mask pos)) <= 255
  /\ 0 <= Z.lxor b (BitVector.mask pos) <= 255.
Proof.
  intros Hb. pose proof (mask_range pos) as Hm.
  assert (Hhigh : forall j, 8 <= j -> Z.testbit (BitVector.mask pos) j = false).
  { intros j Hj. rewrite mask_bits. pose proof (offset_range pos). lia. }
  assert (Hu : forall x, to_uchar x = x -> 0 <= x <= 255).
  { intros x <-. pose proof (to_uchar_range x) as H. unfold is_uchar in H. lia. }
  repeat split; try (unfold Z.lnot; lia); apply Hu, to_uchar_id; intros j Hj.
  - by rewrite Z.lor_spec, Hhigh, uchar_high_bits.
  - by rewrite Z.lor_spec, Hhigh, uchar_high_bits.
  - by rewrite Z.land_spec, uchar_high_bits.
  - by rewrite Z.land_spec, uchar_high_bits.
  - by rewrite Z.lxor_spec, Hhigh, uchar_high_bits.
  - by rewrite Z.lxor_spec, Hhigh, uchar_high_bits.
Qed.

(** ** The methods, one call at a time *)

Lemma in_range_lookup v pos :
  storage_ok v -> 0 <= pos < num_bits v ->
  exists b, data v !! Z.to_nat (pos / BitVector.BITS_PER_BYTE) = Some b.
Proof.
  unfold storage_ok, BitVector.BITS_PER_BYTE. intros Hlen Hpos.
  symmetry in Hlen. apply ceil_div_spec in Hlen.
  apply lookup_lt_is_Some. lia.
Qed.

(** A store that rewrites bit [pos mod 8] of byte [pos / 8] by [f] and keeps
    the other seven bits is an update of position [pos]. *)
Lemma store_updates (f : bool -> bool) v pos b x :
  0 <= pos ->
  data v !! Z.to_nat (pos / BitVector.BITS_PER_BYTE) = Some b ->
  (forall j, 0 <= j < 8 ->
     Z.testbit (to_uchar x) j
     = if pos mod BitVector.BITS_PER_BYTE =? j then f (Z.testbit b j)
       else Z.testbit b j) ->
  exists v',
    data_store (pos / BitVector.BITS_PER_BYTE) x v = (Returns tt, v')
    /\ updates f pos v v'.
Proof.
  intros Hpos Hb Hbits. unfold data_store. rewrite Hb.
  eexists. split; [reflexivity|].
  assert (Hlt : (Z.to_nat (pos / BitVector.BITS_PER_BYTE) < length (data v))%nat)
    by (by eapply lookup_lt_Some).
  unfold updates; simpl. repeat split.
  - apply length_insert.
  - intros Hd. apply Forall_insert; [done | apply to_uchar_range].
  - intros q Hq. unfold get_bit; simpl. rewrite Hb.
    destruct (Z.eqb_spec q pos) as [->|Hne].
    + rewrite list_lookup_insert_eq by done.
      rewrite Hbits by apply offset_range. by rewrite Z.eqb_refl.
    + destruct (position_injective pos q Hpos Hq (not_eq_sym Hne)) as [Hi|Ho].
      * by rewrite list_lookup_insert_ne.
      * destruct (decide (Z.to_nat (pos / BitVector.BITS_PER_BYTE)
                          = Z.to_nat (q / BitVector.BITS_PER_BYTE))) as [E|E].
        -- rewrite <- E, Hb, list_lookup_insert_eq by done.
           rewrite Hbits by apply offset_range.
           by destruct (Z.eqb_spec (pos mod BitVector.BITS_PER_BYTE)
                          (q mod BitVector.BITS_PER_BYTE)).
        -- by rewrite list_lookup_insert_ne.
Qed.

Lemma set_spec v pos :
  storage_ok v -> 0 <= pos < num_bits v ->
  exists v', BitVector.set pos v = (Returns tt, v')
             /\ updates (fun _ => true) pos v v'.
Proof.
  intros Hlen Hpos. destruct (in_range_lookup v pos Hlen Hpos) as [b Hb].
  destruct (store_updates (fun _ => true) v pos b (Z.lor b (BitVector.mask pos)))
    as (v' & Hrun & Hupd); [lia | done | intros; apply set_bits; lia |].
  exists v'. split; [|done].
  unfold_method. destruct (Z.geb_spec pos (num_bits v)); [lia|].
  rewrite Hb. exact Hrun.
Qed.

Lemma clear_spec v pos :
  storage_ok v -> 0 <= pos < num_bits v ->
  exists v', BitVector.clear pos v = (Returns tt, v')
             /\ updates (fun _ => false) pos v v'.
Proof.
  intros Hlen Hpos. destruct (in_range_lookup v pos Hlen Hpos) as [b Hb].
  destruct (store_updates (fun _ => false) v pos b
              (Z.land b (Z.lnot (BitVector.mask pos))))
    as (v' & Hrun & Hupd); [lia | done | intros; apply clear_bits; lia |].
  exists v'. split; [|done].
  unfold_method. destruct (Z.geb_spec pos (num_bits v)); [lia|].
  rewrite Hb. exact Hrun.
Qed.

Lemma toggle_spec v pos :
  storage_ok v -> 0 <= pos < num_bits v ->
  exists v', BitVector.toggle pos v = (Returns tt, v')
             /\ updates negb pos v v'.
Proof.
  intros Hlen Hpos. destruct (in_range_lookup v pos Hlen Hpos) as [b Hb].
  destruct (store_updates negb v pos b (Z.lxor b (BitVector.mask pos)))
    as (v' & Hrun & Hupd); [lia | done | intros; apply toggle_bits; lia |].
  exists v'. split; [|done].
  unfold_method. destruct (Z.geb_spec pos (num_bits v)); [lia|].
  rewrite Hb. exact Hrun.
Qed.

(** On a position of the vector [test] returns the bit of the layout. *)
Lemma test_spec v pos :
  storage_ok v -> 0 <= pos < num_bits v ->
  BitVector.test pos v = (Returns (get_bit v pos), v).
Proof.
  intros Hlen Hpos. destruct (in_range_lookup v pos Hlen Hpos) as [b Hb].
  unfold_method. destruct (Z.geb_spec pos (num_bits v)); [lia|].
  unfold get_bit. rewrite Hb. by rewrite test_mask.
Qed.

Lemma test_true_get_bit v pos :
  storage_ok v -> 0 <= pos < num_bits v -> test_true v pos = get_bit v pos.
Proof.
  intros Hlen Hpos. unfold test_true. rewrite test_spec by done.
  simpl. by destruct (get_bit v pos).
Qed.

(** An update keeps the representation invariant and the padding. *)
Lemma updates_wf f pos v v' : updates f pos v v' -> wf v -> wf v'.
Proof.
  intros (Hn & Hl & Hu & _) [[Hs Hd] Hlen].
  unfold wf, well_typed, storage_ok in *. rewrite Hn, Hl. auto.
Qed.

Lemma updates_padding f pos v v' :
  updates f pos v v' -> 0 <= pos < num_bits v ->
  padding_zero v -> padding_zero v'.
Proof.
  intros (Hn & Hl & _ & Hbits) Hpos Hpad p Hp.
  rewrite Hn, Hl in Hp. rewrite Hbits by lia.
  destruct (Z.eqb_spec p pos); [lia | by apply Hpad].
Qed.

(** ** The [const] methods leave the object alone, in every state *)

Lemma test_const pos v : snd (BitVector.test pos v) = v.
Proof.
  unfold_method. destruct (pos >=? num_bits v); [done|].
  by destruct (data v !! _).
Qed.

Lemma size_const v : BitVector.size v = (Returns (num_bits v), v).
Proof. reflexivity. Qed.

Lemma count_loop_const iters : forall i cnt v,
  snd (BitVector.count_loop iters i cnt v) = v.
Proof.
  induction iters as [|n IH]; intros i cnt v; simpl; [done|].
  unfold bind. pose proof (test_const i v) as Ht.
  destruct (BitVector.test i v) as [[b|e|] v0]; simpl in Ht; subst v0;
    [apply IH | done | done].
Qed.

Lemma count_const v : snd (BitVector.count v) = v.
Proof. unfold BitVector.count, bind, get_num_bits. apply count_loop_const. Qed.

Lemma to_string_loop_const iters : forall i out v,
  snd (BitVector.to_string_loop iters i out v) = v.
Proof.
  induction iters as [|n IH]; intros i out v; simpl; [done|].
  unfold bind. pose proof (test_const i v) as Ht.
  destruct (BitVector.test i v) as [[b|e|] v0]; simpl in Ht; subst v0;
    [apply IH | done | done].
Qed.

Lemma to_string_const v : snd (BitVector.to_string v) = v.
Proof.
  unfold BitVector.to_string, bind, get_num_bits, string_reserve, throw, ret.
  destruct (num_bits v >? STRING_MAX_SIZE); [done | apply to_string_loop_const].
Qed.

(** ** The two loops on a well-formed object *)

Lemma count_loop_spec v :
  wf v ->
  forall iters i cnt,
    0 <= cnt <= i -> i + Z.of_nat iters <= num_bits v ->
    BitVector.count_loop iters i cnt v
    = (Returns
         (cnt + Z.of_nat
                  (length (List.filter (test_true v) (seqZ i (Z.of_nat iters))))),
       v).
Proof.
  intros [[Hs _] Hlen]. unfold is_size_t in Hs.
  induction iters as [|n IH]; intros i cnt Hc Hi.
  - cbn [BitVector.count_loop]. rewrite seqZ_nil by lia.
    cbn [List.filter length]. by rewrite Z.add_0_r.
  - cbn [BitVector.count_loop]. unfold bind at 1.
    rewrite test_spec by (done || lia).
    rewrite (size_wrap_small (i + 1)) by (unfold is_size_t; lia).
    rewrite seqZ_cons by lia. cbn [List.filter].
    rewrite test_true_get_bit by (done || lia).
    replace (Z.pred (Z.of_nat (S n))) with (Z.of_nat n) by lia.
    replace (Z.succ i) with (i + 1) by lia.
    destruct (get_bit v i).
    + rewrite (size_wrap_small (cnt + 1)) by (unfold is_size_t; lia).
      rewrite IH by lia. cbn [length]. do 2 f_equal. lia.
    + by rewrite IH by lia.
Qed.

Lemma digits_length v n : forall i, String.length (digits v n i) = n.
Proof. induction n as [|n IH]; intros i; simpl; [done | by rewrite IH]. Qed.

Lemma digits_get v n : forall i k,
  (k < n)%nat ->
  String.get k (digits v n i)
  = Some (if test_true v (i + Z.of_nat k) then "1"%char else "0"%char).
Proof.
  induction n as [|n IH]; intros i k Hk; [lia|].
  destruct k as [|k]; cbn [digits String.get].
  - change (Z.of_nat 0) with 0. by rewrite Z.add_0_r.
  - rewrite IH by lia.
    by replace (i + 1 + Z.of_nat k) with (i + Z.of_nat (S k)) by lia.
Qed.

Lemma append_snoc out c rest :
  String.append (String.append out (String c EmptyString)) rest
  = String.append out (String c rest).
Proof. induction out as [|a out IH]; simpl; [done | by rewrite IH]. Qed.

Lemma append_empty_r out : String.append out EmptyString = out.
Proof. induction out as [|a out IH]; simpl; [done | by rewrite IH]. Qed.

Lemma to_string_loop_spec v :
  wf v ->
  forall iters i out,
    0 <= i -> i + Z.of_nat iters <= num_bits v ->
    BitVector.to_string_loop iters i out v
    = (Returns (String.append out (digits v iters i)), v).
Proof.
  intros [[Hs _] Hlen]. unfold is_size_t in Hs.
  induction iters as [|n IH]; intros i out Hi Hn.
  - simpl. by rewrite append_empty_r.
  - cbn [BitVector.to_string_loop digits]. unfold bind at 1.
    rewrite test_spec by (done || lia).
    rewrite (size_wrap_small (i + 1)) by (unfold is_size_t; lia).
    rewrite test_true_get_bit by (done || lia).
    rewrite IH by lia. by rewrite append_snoc.
Qed.

Lemma count_spec v :
  wf v -> BitVector.count v = (Returns (set_positions v), v).
Proof.
  intros Hwf. pose proof Hwf as [[Hs _] _]. unfold is_size_t in Hs.
  unfold BitVector.count, bind, get_num_bits, set_positions.
  rewrite (count_loop_spec v Hwf) by lia.
  by rewrite Z2Nat.id, Z.add_0_l by lia.
Qed.

Lemma to_string_spec v :
  wf v -> num_bits v <= STRING_MAX_SIZE ->
  exists s,
    BitVector.to_string v = (Returns s, v)
    /\ Z.of_nat (String.length s) = num_bits v
    /\ forall i, 0 <= i < num_bits v ->
         String.get (Z.to_nat i) s
         = Some (if test_true v i then "1"%char else "0"%char).
Proof.
  intros Hwf Hmax. pose proof Hwf as [[Hs _] _]. unfold is_size_t in Hs.
  exists (digits v (Z.to_nat (num_bits v)) 0). split; [|split].
  - unfold BitVector.to_string, bind, get_num_bits, string_reserve, throw, ret.
    destruct (Z.gtb_spec (num_bits v) STRING_MAX_SIZE); [lia|].
    by rewrite (to_string_loop_spec v Hwf) by lia.
  - rewrite digits_length. lia.
  - intros i Hi. rewrite digits_get by lia.
    by rewrite Z2Nat.id, Z.add_0_l by lia.
Qed.

(** Above the maximum length of a string [to_string] throws from [reserve],
    in every state. *)
Lemma to_string_length_error v :
  STRING_MAX_SIZE < num_bits v ->
  BitVector.to_string v = (Throws length_error, v).
Proof.
  intros H.
  unfold BitVector.to_string, bind, get_num_bits, string_reserve, throw, ret.
  by destruct (Z.gtb_spec (num_bits v) STRING_MAX_SIZE); [|lia].
Qed.

Lemma STRING_MAX_SIZE_bound : 0 <= STRING_MAX_SIZE <= SIZE_MAX - 7.
Proof. by vm_compute. Qed.

Lemma STRING_MAX_SIZE_value : STRING_MAX_SIZE = 2 ^ 62 - 1.
Proof. reflexivity. Qed.

(** ** Out-of-range positions, in every state *)

Lemma position_out_of_range v pos :
  num_bits v <= pos ->
  BitVector.set pos v = (Throws out_of_range, v)
  /\ BitVector.clear pos v = (Throws out_of_range, v)
  /\ BitVector.toggle pos v = (Throws out_of_range, v)
  /\ BitVector.test pos v = (Throws out_of_range, v).
Proof.
  intros H. unfold_method.
  by destruct (Z.geb_spec pos (num_bits v)); [|lia].
Qed.

(** ** The constructor below the wrap-around *)

Lemma ctor_storage size :
  0 <= size <= SIZE_MAX - 7 ->
  Z.of_nat (length (data (BitVector.ctor size))) = ceil_div size 8.
Proof.
  intros H. unfold BitVector.ctor; cbn [data].
  rewrite length_replicate, ctor_rounding by done.
  assert (0 <= ceil_div size 8); [|lia].
  assert (Hq := proj1 (ceil_div_spec size (ceil_div size 8)) eq_refl). lia.
Qed.

Lemma ctor_get_bit size p : get_bit (BitVector.ctor size) p = false.
Proof.
  unfold get_bit, BitVector.ctor; cbn [data].
  destruct (replicate _ 0 !! _) as [b|] eqn:Hb; [|done].
  apply lookup_replicate in Hb as [-> _]. apply Z.bits_0.
Qed.

Lemma ctor_invariant size :
  0 <= size <= SIZE_MAX - 7 -> invariant (BitVector.ctor size).
Proof.
  intros H. repeat split.
  - cbn [BitVector.ctor num_bits]. lia.
  - cbn [BitVector.ctor num_bits]. lia.
  - apply Forall_replicate. unfold is_uchar. lia.
  - by apply ctor_storage.
  - intros p _. apply ctor_get_bit.
Qed.

(** ** One call of the interface *)

Lemma bind_ret_snd {A B} (m : method A) (f : A -> B) v :
  snd (bind m (fun a => ret (f a)) v) = snd (m v).
Proof. unfold bind, ret. by destruct (m v) as [[a|e|] v0]. Qed.

(** The object after a call: only the three mutators can change it. *)
Lemma run_call_state c v :
  snd (run_call c v)
  = match c with
    | CallSet pos => snd (BitVector.set pos v)
    | CallClear pos => snd (BitVector.clear pos v)
    | CallToggle pos => snd (BitVector.toggle pos v)
    | CallTest _ | CallSize | CallCount | CallToString => v
    end.
Proof.
  destruct c as [pos|pos|pos|pos| | |]; cbn [run_call];
    rewrite bind_ret_snd; try done.
  - apply test_const.
  - apply count_const.
  - apply to_string_const.
Qed.

(** Whatever the state, a call changes neither the capacity nor the length
    of the buffer, and stores only [unsigned char] values. *)
Lemma run_call_shape c v :
  num_bits (snd (run_call c v)) = num_bits v
  /\ length (data (snd (run_call c v))) = length (data v)
  /\ (Forall is_uchar (data v) -> Forall is_uchar (data (snd (run_call c v)))).
Proof.
  rewrite run_call_state.
  destruct c as [pos|pos|pos|pos| | |]; try done;
    unfold_method; (destruct (pos >=? num_bits v); [done|]);
    destruct (data v !! _) eqn:Hb; cbn [fst snd data num_bits];
    rewrite ?Hb; cbn [fst snd data num_bits]; try done;
    (repeat split; [apply length_insert |]);
    intros Hd; (apply Forall_insert; [done | apply to_uchar_range]).
Qed.

(** On an object that satisfies the invariants every call is defined and
    leaves an object that satisfies them. *)
Lemma run_call_invariant c v :
  invariant v -> call_ok c ->
  fst (run_call c v) <> Undefined /\ invariant (snd (run_call c v)).
Proof.
  intros [Hwf Hpad] Hc. pose proof Hwf as [_ Hlen].
  assert (Hmut : forall (m : Z -> method unit) f pos,
            is_size_t pos ->
            (num_bits v <= pos -> m pos v = (Throws out_of_range, v)) ->
            (0 <= pos < num_bits v ->
             exists v', m pos v = (Returns tt, v') /\ updates f pos v v') ->
            fst (bind (m pos) (fun _ => ret VVoid) v) <> Undefined
            /\ invariant (snd (bind (m pos) (fun _ => ret VVoid) v))).
  { intros m f pos [Hp _] Hout Hin. unfold bind.
    destruct (Z.le_gt_cases (num_bits v) pos) as [Hge|Hlt].
    - rewrite Hout by done. by split.
    - destruct Hin as (v' & -> & Hupd); [lia|]. cbn. split; [done|].
      split; [by eapply updates_wf | eapply updates_padding; [done | lia | done]]. }
  destruct c as [pos|pos|pos|pos| | |]; cbn [run_call call_ok] in *.
  - apply (Hmut BitVector.set (fun _ => true)); [done | apply position_out_of_range |].
    by apply set_spec.
  - apply (Hmut BitVector.clear (fun _ => false)); [done | apply position_out_of_range |].
    by apply clear_spec.
  - apply (Hmut BitVector.toggle negb); [done | apply position_out_of_range |].
    by apply toggle_spec.
  - unfold bind. destruct Hc as [Hp _].
    destruct (Z.le_gt_cases (num_bits v) pos) as [Hge|Hlt].
    + rewrite (proj2 (proj2 (proj2 (position_out_of_range v pos Hge)))). by split.
    + rewrite test_spec by (done || lia). by split.
  - by split.
  - unfold bind. rewrite count_spec by done. by split.
  - unfold bind.
    destruct (Z.le_gt_cases (num_bits v) STRING_MAX_SIZE) as [Hle|Hgt].
    + destruct (to_string_spec v Hwf Hle) as (s & -> & _). by split.
    + rewrite to_string_length_error by done. by split.
Qed.

(** ** Reachable objects *)

Lemma reachable_well_typed v : reachable v -> well_typed v.
Proof.
  induction 1 as [size Hs | v c _ [IHs IHd] _ _].
  - split; [done|]. apply Forall_replicate. unfold is_uchar. lia.
  - destruct (run_call_shape c v) as (Hn & _ & Hd).
    split; [by rewrite Hn | by apply Hd].
Qed.

(** Every object built from a capacity of at most [SIZE_MAX - 7] satisfies
    the invariants. *)
Lemma reachable_invariant v :
  reachable v -> num_bits v <= SIZE_MAX - 7 -> invariant v.
Proof.
  induction 1 as [size [Hs _] | v c _ IH Hc _]; intros Hn.
  - apply ctor_invariant. cbn [BitVector.ctor num_bits] in Hn. lia.
  - destruct (run_call_shape c v) as (Hnb & _).
    rewrite Hnb in Hn. by apply run_call_invariant; [apply IH|].
Qed.

(** ** The constructor at the last seven values of [size_t] *)

(** There [size + BITS_PER_BYTE] wraps, the rounded quotient is 0 and the
    buffer stays empty although the capacity is not 0. *)
Lemma ctor_wraps size :
  SIZE_MAX - 7 < size <= SIZE_MAX -> data (BitVector.ctor size) = [].
Proof.
  intros H. unfold BitVector.ctor, BitVector.BITS_PER_BYTE; cbn [data].
  replace (size_wrap (size_wrap (size + 8) - 1) / 8) with 0; [done|].
  unfold size_wrap. rewrite Zminus_mod_idemp_l.
  unfold SIZE_MAX, SIZE_WIDTH in H. unfold SIZE_WIDTH.
  change (2 ^ 64) with 18446744073709551616 in *. lia.
Qed.

(** Every access to a position of such a vector is outside the buffer. *)
Lemma wrapped_undefined size pos :
  SIZE_MAX - 7 < size <= SIZE_MAX -> 0 <= pos < size ->
  let v := BitVector.ctor size in
  BitVector.set pos v = (Undefined, v)
  /\ BitVector.clear pos v = (Undefined, v)
  /\ BitVector.toggle pos v = (Undefined, v)
  /\ BitVector.test pos v = (Undefined, v).
Proof.
  intros Hs Hp v.
  assert (Hd : data v = []) by (by apply ctor_wraps).
  unfold_method. change (num_bits v) with size.
  destruct (Z.geb_spec pos size); [lia|].
  cbn beta. by rewrite Hd.
Qed.

Lemma SIZE_MAX_range : SIZE_MAX - 7 < SIZE_MAX <= SIZE_MAX /\ 1 < SIZE_MAX.
Proof. by vm_compute. Qed.

Lemma count_loop_undefined iters i cnt v :
  BitVector.test i v = (Undefined, v) ->
  BitVector.count_loop (S iters) i cnt v = (Undefined, v).
Proof. intros H. cbn [BitVector.count_loop]. unfold bind. by rewrite H. Qed.

(** A sequence of calls without undefined behaviour leads from a reachable
    object to a reachable object. *)
Lemma reachable_run_calls cs : forall v,
  reachable v -> Forall call_ok cs ->
  Forall (fun o => o <> Undefined) (outcomes cs v) ->
  reachable (run_calls cs v).
Proof.
  induction cs as [|c cs IH]; intros v Hv Hok Hdef; [done|].
  cbn [run_calls outcomes] in *.
  apply Forall_cons in Hok as [Hc Hok]. apply Forall_cons in Hdef as [Hd Hdef].
  apply IH; [by apply reachable_call | done | done].
Qed.

(** ** Objects are determined by their bits *)

Lemma get_bit_at v i j b :
  data v !! i = Some b -> 0 <= j < 8 ->
  get_bit v (8 * Z.of_nat i + j) = Z.testbit b j.
Proof.
  intros Hb Hj. unfold get_bit, BitVector.BITS_PER_BYTE.
  replace ((8 * Z.of_nat i + j) / 8) with (Z.of_nat i) by lia.
  replace ((8 * Z.of_nat i + j) mod 8) with j by lia.
  by rewrite Nat2Z.id, Hb.
Qed.

Lemma state_ext v v' :
  Forall is_uchar (data v) -> Forall is_uchar (data v') ->
  num_bits v' = num_bits v ->
  length (data v') = length (data v) ->
  (forall q, 0 <= q -> get_bit v' q = get_bit v q) ->
  v' = v.
Proof.
  destruct v as [d n], v' as [d' n']; cbn [data num_bits].
  intros Hd Hd' -> Hlen Hbits. f_equal.
  apply list_eq. intros i.
  destruct (d !! i) as [b|] eqn:Hb.
  - destruct (lookup_lt_is_Some_2 d' i) as [b' Hb'];
      [rewrite Hlen; by eapply lookup_lt_Some|].
    rewrite Hb'. f_equal. apply Z.bits_inj'. intros j Hj.
    destruct (Z.lt_ge_cases j 8) as [Hlt|Hge].
    + rewrite <- (get_bit_at (mk_bit_vector d' n) i j b') by (done || lia).
      rewrite <- (get_bit_at (mk_bit_vector d n) i j b) by (done || lia).
      apply Hbits. lia.
    + rewrite !uchar_high_bits; [done | | done | | done].
      * by eapply (proj1 (Forall_lookup _ _) Hd).
      * by eapply (proj1 (Forall_lookup _ _) Hd').
  - apply lookup_ge_None. rewrite Hlen. by apply lookup_ge_None.
Qed.

(** An update that does not change the bit does not change the object. *)
Lemma updates_id f pos v v' :
  Forall is_uchar (data v) -> updates f pos v v' ->
  f (get_bit v pos) = get_bit v pos -> v' = v.
Proof.
  intros Hd (Hn & Hl & Hu & Hbits) Hf.
  apply state_ext; auto.
  intros q Hq. rewrite Hbits by done.
  destruct (Z.eqb_spec q pos) as [->|]; [by rewrite Hf | done].
Qed.

Lemma updates_storage f pos v v' : updates f pos v v' -> storage_ok v -> storage_ok v'.
Proof. intros (Hn & Hl & _) H. unfold storage_ok in *. by rewrite Hn, Hl. Qed.

(** After an update [test] sees the new bit at [pos] and the old bit at
    every other position. *)
Lemma updates_test f pos v v' q :
  updates f pos v v' -> storage_ok v -> 0 <= q < num_bits v ->
  BitVector.test q v'
  = (Returns (if q =? pos then f (get_bit v pos) else get_bit v q), v').
Proof.
  intros Hupd Hlen Hq. pose proof Hupd as (Hn & _ & _ & Hbits).
  rewrite test_spec; [| by eapply updates_storage | by rewrite Hn].
  by rewrite Hbits by lia.
Qed.

(** ** The contract on well-formed objects

    The statements of this section hold for every object that satisfies the
    representation invariant [wf], hence ([reachable_invariant]) for every
    object built from a capacity of at most [SIZE_MAX - 7]. *)

(** [Set] then [Test] gives true, a following [Clear] then [Test] gives
    false, whatever the bit was. *)
Lemma set_clear_test v pos :
  wf v -> 0 <= pos < num_bits v ->
  exists v1 v2,
    BitVector.set pos v = (Returns tt, v1)
    /\ BitVector.test pos v1 = (Returns true, v1)
    /\ BitVector.clear pos v1 = (Returns tt, v2)
    /\ BitVector.test pos v2 = (Returns false, v2).
Proof.
  intros [_ Hlen] Hpos.
  destruct (set_spec v pos Hlen Hpos) as (v1 & Hset & Hu1).
  pose proof (updates_storage _ _ _ _ Hu1 Hlen) as Hlen1.
  pose proof Hu1 as (Hn1 & _).
  destruct (clear_spec v1 pos Hlen1) as (v2 & Hclr & Hu2); [by rewrite Hn1|].
  exists v1, v2. repeat split; [done | | done |].
  - rewrite (updates_test _ _ _ _ pos Hu1) by done. by rewrite Z.eqb_refl.
  - rewrite (updates_test _ _ _ _ pos Hu2) by (done || by rewrite Hn1).
    by rewrite Z.eqb_refl.
Qed.

(** [Set] on a bit that is 1 and [Clear] on a bit that is 0 change nothing. *)
Lemma set_clear_idempotent v pos :
  wf v -> 0 <= pos < num_bits v ->
  (get_bit v pos = true -> BitVector.set pos v = (Returns tt, v))
  /\ (get_bit v pos = false -> BitVector.clear pos v = (Returns tt, v)).
Proof.
  intros [[_ Hd] Hlen] Hpos. split; intros Hb.
  - destruct (set_spec v pos Hlen Hpos) as (v1 & -> & Hu).
    by rewrite (updates_id _ _ _ _ Hd Hu).
  - destruct (clear_spec v pos Hlen Hpos) as (v1 & -> & Hu).
    by rewrite (updates_id _ _ _ _ Hd Hu).
Qed.

(** One [Toggle] flips what [Test] returns; two restore the object. *)
Lemma toggle_involutive v pos :
  wf v -> 0 <= pos < num_bits v ->
  exists v1,
    BitVector.toggle pos v = (Returns tt, v1)
    /\ BitVector.test pos v1 = (Returns (negb (get_bit v pos)), v1)
    /\ BitVector.test pos v = (Returns (get_bit v pos), v)
    /\ BitVector.toggle pos v1 = (Returns tt, v).
Proof.
  intros [[_ Hd] Hlen] Hpos.
  destruct (toggle_spec v pos Hlen Hpos) as (v1 & Ht1 & Hu1).
  pose proof (updates_storage _ _ _ _ Hu1 Hlen) as Hlen1.
  pose proof Hu1 as (Hn1 & Hl1 & Hd1 & Hb1).
  destruct (toggle_spec v1 pos Hlen1) as (v2 & Ht2 & Hu2); [by rewrite Hn1|].
  pose proof Hu2 as (Hn2 & Hl2 & Hd2 & Hb2).
  exists v1. repeat split; [done | | by apply test_spec |].
  - rewrite (updates_test _ _ _ _ pos Hu1) by done. by rewrite Z.eqb_refl.
  - rewrite Ht2. f_equal. apply state_ext; auto; [congruence | congruence |].
    intros q Hq. rewrite Hb2, !Hb1 by lia. rewrite Z.eqb_refl.
    destruct (Z.eqb_spec q pos) as [->|]; [apply negb_involutive | done].
Qed.

(** A mutator at [pos] leaves [Test] at every other position as it was. *)
Lemma mutators_frame v pos q :
  wf v -> 0 <= pos < num_bits v -> 0 <= q < num_bits v -> q <> pos ->
  forall m, m = BitVector.set \/ m = BitVector.clear \/ m = BitVector.toggle ->
  exists v',
    m pos v = (Returns tt, v')
    /\ fst (BitVector.test q v') = fst (BitVector.test q v)
    /\ fst (BitVector.test q v) = Returns (get_bit v q).
Proof.
  intros [_ Hlen] Hpos Hq Hne m Hm.
  assert (Hgen : forall f v', updates f pos v v' ->
            fst (BitVector.test q v') = fst (BitVector.test q v)
            /\ fst (BitVector.test q v) = Returns (get_bit v q)).
  { intros f v' Hu. rewrite (updates_test _ _ _ _ q Hu), test_spec by done.
    by destruct (Z.eqb_spec q pos). }
  destruct Hm as [ -> | [ -> | -> ] ].
  - destruct (set_spec v pos Hlen Hpos) as (v' & Hrun & Hu). eauto.
  - destruct (clear_spec v pos Hlen Hpos) as (v' & Hrun & Hu). eauto.
  - destruct (toggle_spec v pos Hlen Hpos) as (v' & Hrun & Hu). eauto.
Qed.

(** The constructor, for a capacity of at most [SIZE_MAX - 7]. *)
Lemma ctor_spec size :
  0 <= size <= SIZE_MAX - 7 ->
  let v := BitVector.ctor size in
  BitVector.size v = (Returns size, v)
  /\ Z.of_nat (length (data v)) = ceil_div size 8
  /\ Forall (eq 0) (data v)
  /\ forall pos, 0 <= pos < size -> BitVector.test pos v = (Returns false, v).
Proof.
  intros Hs v; subst v. repeat split.
  - by apply ctor_storage.
  - apply Forall_replicate_eq.
  - intros pos Hpos. rewrite test_spec; [by rewrite ctor_get_bit | | done].
    by apply ctor_invariant.
Qed.

(** ** The contract on reachable objects

    Every object a program can build from a capacity of at most
    [SIZE_MAX - 7] meets the contract of [Count], [Set], [Clear], [Toggle]
    and the frame property. *)

Section Reachable.

Variable v : bit_vector.
Hypothesis Hreach : reachable v.
Hypothesis Hcap : num_bits v <= SIZE_MAX - 7.

Lemma reachable_wf : wf v.
Proof. by destruct (reachable_invariant v Hreach Hcap). Qed.

Lemma count_reachable : BitVector.count v = (Returns (set_positions v), v).
Proof. apply count_spec, reachable_wf. Qed.

Lemma set_clear_reachable pos :
  0 <= pos < num_bits v ->
  exists v1 v2,
    BitVector.set pos v = (Returns tt, v1)
    /\ BitVector.test pos v1 = (Returns true, v1)
    /\ BitVector.clear pos v1 = (Returns tt, v2)
    /\ BitVector.test pos v2 = (Returns false, v2).
Proof. apply set_clear_test, reachable_wf. Qed.

Lemma toggle_reachable pos :
  0 <= pos < num_bits v ->
  exists v1,
    BitVector.toggle pos v = (Returns tt, v1)
    /\ BitVector.test pos v1 = (Returns (negb (get_bit v pos)), v1)
    /\ BitVector.test pos v = (Returns (get_bit v pos), v)
    /\ BitVector.toggle pos v1 = (Returns tt, v).
Proof. apply toggle_involutive, reachable_wf. Qed.

Lemma frame_reachable pos q :
  0 <= pos < num_bits v -> 0 <= q < num_bits v -> q <> pos ->
  forall m, m = BitVector.set \/ m = BitVector.clear \/ m = BitVector.toggle ->
  exists v',
    m pos v = (Returns tt, v')
    /\ fst (BitVector.test q v') = fst (BitVector.test q v)
    /\ fst (BitVector.test q v) = Returns (get_bit v q).
Proof. apply mutators_frame, reachable_wf. Qed.

End Reachable.

(** ** The claims *)

(** C1. [Count()] returns the number of positions at which [Test] is true
    and changes nothing ([count_reachable]) on every object built from a
    capacity of at most [SIZE_MAX - 7]. It fails on the reachable object
    [bit_vector(SIZE_MAX)]: the constructor's rounding wraps, the buffer is
    empty, and the first [test(0)] of the loop reads outside it. *)
Theorem count_undefined_when_ctor_wraps :
  let v := BitVector.ctor SIZE_MAX in
  reachable v /\ BitVector.count v = (Undefined, v).
Proof.
  intros v. split; [by apply reachable_ctor|].
  unfold BitVector.count, bind, get_num_bits.
  change (num_bits v) with SIZE_MAX.
  destruct SIZE_MAX_range as [Hr H1].
  destruct (Z.to_nat SIZE_MAX) as [|n] eqn:E; [lia|].
  apply count_loop_undefined, (wrapped_undefined SIZE_MAX 0); lia.
Qed.

(** C2, as stated, fails: on the reachable object [bit_vector(SIZE_MAX)]
    the call [out.reserve(num_bits)] asks for more than a string can hold and
    [ToText()] throws [std::length_error] instead of returning a string. *)
Lemma to_string_throws_at_SIZE_MAX :
  let v := BitVector.ctor SIZE_MAX in
  reachable v
  /\ BitVector.to_string v = (Throws length_error, v)
  /\ ~ (exists s, BitVector.to_string v = (Returns s, v)).
Proof.
  intros v.
  assert (H : BitVector.to_string v = (Throws length_error, v)).
  { apply to_string_length_error. change (num_bits v) with SIZE_MAX.
    by vm_compute. }
  split; [by apply reachable_ctor|]. split; [done|].
  intros [s Hs]. by rewrite H in Hs.
Qed.

(** C2, amended. For every reachable object whose capacity is at most the
    maximum length of a string, [ToText()] returns a string of length exactly
    the capacity whose character at index [i] (index 0 first) is ['1'] if
    [Test(i)] is true and ['0'] otherwise, and leaves the object as it
    was. *)
Theorem to_string_contract (v : bit_vector) :
  reachable v -> num_bits v <= STRING_MAX_SIZE ->
  exists s,
    BitVector.to_string v = (Returns s, v)
    /\ Z.of_nat (String.length s) = num_bits v
    /\ forall i, 0 <= i < num_bits v ->
         String.get (Z.to_nat i) s
         = Some (if test_true v i then "1"%char else "0"%char).
Proof.
  intros Hv Hmax. pose proof STRING_MAX_SIZE_bound as Hb.
  apply to_string_spec; [|done].
  apply reachable_invariant; [done | lia].
Qed.

Lemma to_string_contract_witness :
  let v := run_calls [CallSet 3; CallSet 7] (BitVector.ctor 10) in
  reachable v /\ num_bits v <= STRING_MAX_SIZE
  /\ exists s,
       BitVector.to_string v = (Returns s, v)
       /\ Z.of_nat (String.length s) = num_bits v
       /\ forall i, 0 <= i < num_bits v ->
            String.get (Z.to_nat i) s
            = Some (if test_true v i then "1"%char else "0"%char).
Proof.
  intros v.
  assert (Hv : reachable v).
  { apply reachable_run_calls.
    - apply reachable_ctor. by vm_compute.
    - repeat constructor; by vm_compute.
    - repeat constructor; by vm_compute. }
  assert (Hmax : num_bits v <= STRING_MAX_SIZE) by (by vm_compute).
  split; [exact Hv|]. split; [exact Hmax|].
  exact (to_string_contract v Hv Hmax).
Defined.

(** C3. In every state and for every position [pos >= capacity], each of
    [Set], [Clear], [Toggle] and [Test] throws [std::out_of_range] and leaves
    the object (capacity and buffer) as it was. *)
Theorem out_of_range_raises (v : bit_vector) (pos : Z) :
  num_bits v <= pos ->
  BitVector.set pos v = (Throws out_of_range, v)
  /\ BitVector.clear pos v = (Throws out_of_range, v)
  /\ BitVector.toggle pos v = (Throws out_of_range, v)
  /\ BitVector.test pos v = (Throws out_of_range, v).
Proof. apply position_out_of_range. Qed.

Lemma out_of_range_raises_witness :
  let v := run_calls [CallSet 3; CallSet 7] (BitVector.ctor 10) in
  num_bits v <= 10
  /\ BitVector.set 10 v = (Throws out_of_range, v)
  /\ BitVector.clear 10 v = (Throws out_of_range, v)
  /\ BitVector.toggle 10 v = (Throws out_of_range, v)
  /\ BitVector.test 10 v = (Throws out_of_range, v).
Proof.
  intros v.
  assert (H : num_bits v <= 10) by (vm_compute; discriminate).
  split; [exact H | exact (out_of_range_raises v 10 H)].
Defined.

(** C4. The constructor gives [Size() == capacity], a buffer of
    [ceil(capacity / 8)] zero units and [Test] false everywhere ([ctor_spec])
    for every capacity of at most [SIZE_MAX - 7]. At [SIZE_MAX] the sum
    [size + BITS_PER_BYTE] wraps: the buffer has 0 units where
    [ceil(capacity / 8)] is [2^61], and [Test(0)] reads outside it. *)
Theorem ctor_wraps_at_SIZE_MAX :
  let v := BitVector.ctor SIZE_MAX in
  is_size_t SIZE_MAX
  /\ BitVector.size v = (Returns SIZE_MAX, v)
  /\ data v = []
  /\ ceil_div SIZE_MAX 8 = 2 ^ 61
  /\ BitVector.test 0 v = (Undefined, v).
Proof.
  intros v. repeat split; by vm_compute.
Qed.

(** C5. [Set] makes [Test] true and a following [Clear] makes it false, and
    both are idempotent ([set_clear_reachable], [set_clear_idempotent]), on
    every object built from a capacity of at most [SIZE_MAX - 7]. On the reachable
    object [bit_vector(SIZE_MAX)] position 0 is in range, yet [Set(0)] and
    [Clear(0)] access the empty buffer. *)
Theorem set_undefined_when_ctor_wraps :
  let v := BitVector.ctor SIZE_MAX in
  reachable v
  /\ 0 <= 0 < num_bits v
  /\ BitVector.set 0 v = (Undefined, v)
  /\ BitVector.clear 0 v = (Undefined, v).
Proof.
  intros v. destruct SIZE_MAX_range as [Hr H1].
  destruct (wrapped_undefined SIZE_MAX 0) as (Hs & Hc & _); [done | lia |].
  change (num_bits v) with SIZE_MAX.
  repeat split; try done; try lia. by apply reachable_ctor.
Qed.

(** C6. [Toggle] flips [Test] and two [Toggle]s restore the object
    ([toggle_reachable]) on every object built from a capacity of at most
    [SIZE_MAX - 7]. On the reachable object [bit_vector(SIZE_MAX)] position 0
    is in range, yet [Toggle(0)] accesses the empty buffer. *)
Theorem toggle_undefined_when_ctor_wraps :
  let v := BitVector.ctor SIZE_MAX in
  reachable v
  /\ 0 <= 0 < num_bits v
  /\ BitVector.toggle 0 v = (Undefined, v).
Proof.
  intros v. destruct SIZE_MAX_range as [Hr H1].
  destruct (wrapped_undefined SIZE_MAX 0) as (_ & _ & Ht & _); [done | lia |].
  change (num_bits v) with SIZE_MAX.
  repeat split; try done; try lia. by apply reachable_ctor.
Qed.

(** C7. Every operation preserves the structural invariants: on an object
    that satisfies them, after any sequence of [Set], [Clear], [Toggle],
    [Test], [Size], [Count] and [ToText] calls with [size_t] arguments, the
    capacity is unchanged, the buffer has [ceil(capacity / 8)] units, the
    padding bits of the last unit are 0, and no call had undefined
    behaviour. *)
Theorem invariants_preserved (v : bit_vector) (cs : list call) :
  invariant v -> Forall call_ok cs ->
  num_bits (run_calls cs v) = num_bits v
  /\ storage_ok (run_calls cs v)
  /\ padding_zero (run_calls cs v)
  /\ well_typed (run_calls cs v)
  /\ Forall (fun o => o <> Undefined) (outcomes cs v).
Proof.
  intros Hinv Hcs. revert v Hinv.
  induction Hcs as [|c cs Hc _ IH]; intros v Hinv.
  - destruct Hinv as [[Ht Hlen] Hpad]. cbn [run_calls outcomes].
    do 4 (split; [done|]). constructor.
  - destruct (run_call_invariant c v Hinv Hc) as [Hdef Hinv'].
    destruct (IH _ Hinv') as (Hn & Hlen & Hpad & Ht & Hout).
    cbn [run_calls outcomes].
    split; [rewrite Hn; apply run_call_shape|].
    do 3 (split; [done|]). by constructor.
Qed.

Lemma invariants_preserved_witness :
  let v := BitVector.ctor 10 in
  let cs := [CallSet 3; CallToggle 9; CallSet 10; CallClear 3; CallTest 9;
             CallSize; CallCount; CallToString] in
  invariant v /\ Forall call_ok cs
  /\ num_bits (run_calls cs v) = num_bits v
  /\ storage_ok (run_calls cs v)
  /\ padding_zero (run_calls cs v)
  /\ well_typed (run_calls cs v)
  /\ Forall (fun o => o <> Undefined) (outcomes cs v).
Proof.
  intros v cs.
  assert (Hinv : invariant v) by (apply ctor_invariant; by vm_compute).
  assert (Hcs : Forall call_ok cs)
    by (repeat constructor; by vm_compute).
  split; [exact Hinv|]. split; [exact Hcs|].
  exact (invariants_preserved v cs Hinv Hcs).
Defined.

(** C8. For [v = bit_vector(10)] followed by [v.set(3)] and [v.set(7)]:
    [v.count() == 2], [v.to_string() == "0001000100"], [v.test(3)] is true
    and [v.test(4)] is false. *)
Theorem scenario_10 :
  let v0 := BitVector.ctor 10 in
  let v1 := mk_bit_vector [8; 0] 10 in
  let v2 := mk_bit_vector [136; 0] 10 in
  BitVector.set 3 v0 = (Returns tt, v1)
  /\ BitVector.set 7 v1 = (Returns tt, v2)
  /\ BitVector.count v2 = (Returns 2, v2)
  /\ BitVector.to_string v2 = (Returns "0001000100"%string, v2)
  /\ BitVector.test 3 v2 = (Returns true, v2)
  /\ BitVector.test 4 v2 = (Returns false, v2).
Proof. by vm_compute. Qed.

(** C9. For [v = bit_vector(0)]: [v.size() == 0], [v.count() == 0],
    [v.to_string()] is the empty string, and [v.set(0)] throws
    [std::out_of_range] and leaves [v] as it was. *)
Theorem scenario_empty :
  let v := BitVector.ctor 0 in
  BitVector.size v = (Returns 0, v)
  /\ BitVector.count v = (Returns 0, v)
  /\ BitVector.to_string v = (Returns EmptyString, v)
  /\ BitVector.set 0 v = (Throws out_of_range, v).
Proof. by vm_compute. Qed.

(** C10. A mutator at [pos] leaves [Test] at every other position as it was
    ([frame_reachable], from [position_injective]) on every object built from
    a capacity of at most [SIZE_MAX - 7]. On the reachable object
    [bit_vector(SIZE_MAX)] positions 0 and 1 are in range and distinct, yet
    [Set(0)], [Clear(0)] and [Toggle(0)] access the empty buffer, and so does
    [Test(1)] before and after. *)
Theorem frame_undefined_when_ctor_wraps :
  let v := BitVector.ctor SIZE_MAX in
  reachable v
  /\ 0 <= 0 < num_bits v /\ 0 <= 1 < num_bits v
  /\ BitVector.set 0 v = (Undefined, v)
  /\ BitVector.clear 0 v = (Undefined, v)
  /\ BitVector.toggle 0 v = (Undefined, v)
  /\ BitVector.test 1 v = (Undefined, v).
Proof.
  intros v. destruct SIZE_MAX_range as [Hr H1].
  destruct (wrapped_undefined SIZE_MAX 0) as (Hs & Hc & Ht & _); [done | lia |].
  destruct (wrapped_undefined SIZE_MAX 1) as (_ & _ & _ & Hq); [done | lia |].
  change (num_bits v) with SIZE_MAX.
  repeat split; try done; try lia. by apply reachable_ctor.
Qed.

(** The third scenario of the specification: [bit_vector(8)], [set(0)],
    [set(7)], [toggle(7)] reads ["10000000"]. *)
Example scenario_8 :
  let v := run_calls [CallSet 0; CallSet 7; CallToggle 7] (BitVector.ctor 8) in
  BitVector.to_string v = (Returns "10000000"%string, v).
Proof. by vm_compute. Qed.

(** ** Further properties: how updates compose *)

Lemma mutator_spec m f v pos :
  mutator m f -> storage_ok v -> 0 <= pos < num_bits v ->
  exists v', m pos v = (Returns tt, v') /\ updates f pos v v'.
Proof.
  intros [] Hlen Hpos; [by apply set_spec | by apply clear_spec | by apply toggle_spec].
Qed.

Lemma updates_compose f g pos v v1 v2 :
  0 <= pos -> updates f pos v v1 -> updates g pos v1 v2 ->
  updates (fun b => g (f b)) pos v v2.
Proof.
  intros Hpos (Hn1 & Hl1 & Hd1 & Hb1) (Hn2 & Hl2 & Hd2 & Hb2).
  repeat split; [congruence | congruence | auto |].
  intros q Hq. rewrite Hb2, !Hb1 by done. rewrite Z.eqb_refl.
  by destruct (q =? pos).
Qed.

Lemma updates_unique f g pos v v1 v2 :
  Forall is_uchar (data v) ->
  updates f pos v v1 -> updates g pos v v2 ->
  f (get_bit v pos) = g (get_bit v pos) -> v1 = v2.
Proof.
  intros Hd (Hn1 & Hl1 & Hd1 & Hb1) (Hn2 & Hl2 & Hd2 & Hb2) Hfg.
  apply state_ext; auto; [congruence | congruence |].
  intros q Hq. by rewrite Hb1, Hb2, Hfg by done.
Qed.

Lemma updates_commute f g p q v v1 v12 v2 v21 :
  p <> q -> 0 <= p -> 0 <= q -> Forall is_uchar (data v) ->
  updates f p v v1 -> updates g q v1 v12 ->
  updates g q v v2 -> updates f p v2 v21 ->
  v21 = v12.
Proof.
  intros Hne Hp Hq Hd (Hn1 & Hl1 & Hd1 & Hb1) (Hn12 & Hl12 & Hd12 & Hb12)
    (Hn2 & Hl2 & Hd2 & Hb2) (Hn21 & Hl21 & Hd21 & Hb21).
  apply state_ext; auto; [congruence | congruence |].
  intros x Hx. rewrite Hb21, Hb12, !Hb2, !Hb1 by done.
  repeat match goal with
         | |- context [Z.eqb ?a ?b] => destruct (Z.eqb_spec a b)
         end; subst; congruence.
Qed.

(** ** Further properties: counting *)

Lemma filter_test_true_ext v v' (l : list Z) :
  (forall q, q ∈ l -> test_true v' q = test_true v q) ->
  List.filter (test_true v') l = List.filter (test_true v) l.
Proof.
  intros H. apply List.filter_ext_in. intros q Hq.
  apply H. by apply list_elem_of_In.
Qed.

Lemma filter_none (f : Z -> bool) (l : list Z) :
  (forall q, q ∈ l -> f q = false) -> List.filter f l = [].
Proof.
  induction l as [|a l IH]; intros H; [done|]. cbn [List.filter].
  rewrite (H a) by apply list_elem_of_here.
  apply IH. intros q Hq. apply H. by apply list_elem_of_further.
Qed.

Lemma set_positions_range v : 0 <= set_positions v <= Z.max 0 (num_bits v).
Proof.
  unfold set_positions.
  pose proof (List.filter_length_le (test_true v) (seqZ 0 (num_bits v))) as H.
  rewrite length_seqZ in H. lia.
Qed.

(** An update changes the number of set positions by the change of its
    bit. *)
Lemma set_positions_updates f pos v v' :
  storage_ok v -> 0 <= pos < num_bits v -> updates f pos v v' ->
  set_positions v'
  = set_positions v - Z.b2z (get_bit v pos) + Z.b2z (f (get_bit v pos)).
Proof.
  intros Hlen Hpos Hupd. pose proof (updates_storage _ _ _ _ Hupd Hlen) as Hlen'.
  destruct Hupd as (Hn & _ & _ & Hbits).
  assert (Hsame : forall q, 0 <= q < num_bits v -> q <> pos ->
            test_true v' q = test_true v q).
  { intros q Hq Hne. rewrite !test_true_get_bit by (done || by rewrite Hn).
    rewrite Hbits by lia. by destruct (Z.eqb_spec q pos). }
  assert (Hseq : seqZ 0 (num_bits v)
                 = seqZ 0 pos ++ pos :: seqZ (pos + 1) (num_bits v - pos - 1)).
  { transitivity (seqZ 0 (pos + (num_bits v - pos))); [f_equal; lia|].
    rewrite seqZ_app, Z.add_0_l, (seqZ_cons pos) by lia.
    replace (Z.succ pos) with (pos + 1) by lia.
    by replace (Z.pred (num_bits v - pos)) with (num_bits v - pos - 1) by lia. }
  unfold set_positions. rewrite Hn, Hseq.
  rewrite !List.filter_app. cbn [List.filter].
  rewrite !(filter_test_true_ext v v').
  - rewrite !test_true_get_bit by (done || by rewrite Hn).
    rewrite Hbits, Z.eqb_refl by lia. rewrite !length_app.
    destruct (get_bit v pos), (f _); cbn [length Z.b2z]; lia.
  - intros q Hq. apply elem_of_seqZ in Hq. apply Hsame; lia.
  - intros q Hq. apply elem_of_seqZ in Hq. apply Hsame; lia.
Qed.

Lemma ones_append s1 s2 : ones (String.append s1 s2) = ones s1 + ones s2.
Proof. induction s1 as [|c s1 IH]; cbn [String.append ones]; lia. Qed.

Lemma ones_digits v n : forall i,
  ones (digits v n i)
  = Z.of_nat (length (List.filter (test_true v) (seqZ i (Z.of_nat n)))).
Proof.
  induction n as [|n IH]; intros i.
  - by rewrite seqZ_nil by lia.
  - cbn [digits ones]. rewrite (seqZ_cons i) by lia. cbn [List.filter].
    replace (Z.pred (Z.of_nat (S n))) with (Z.of_nat n) by lia.
    replace (Z.succ i) with (i + 1) by lia. rewrite IH.
    destruct (test_true v i);
      [change (Ascii.eqb "1" "1") with true
      |change (Ascii.eqb "0" "1") with false]; cbn [length]; lia.
Qed.

Lemma to_string_digits v :
  wf v -> num_bits v <= STRING_MAX_SIZE ->
  BitVector.to_string v = (Returns (digits v (Z.to_nat (num_bits v)) 0), v).
Proof.
  intros Hwf Hmax. pose proof Hwf as [[Hs _] _]. unfold is_size_t in Hs.
  unfold BitVector.to_string, bind, get_num_bits, string_reserve, throw, ret.
  destruct (Z.gtb_spec (num_bits v) STRING_MAX_SIZE); [lia|].
  by rewrite (to_string_loop_spec v Hwf) by lia.
Qed.

(** The object the witnesses run on: [bit_vector(10)] after [set(3)] and
    [set(7)]. *)
Lemma sample_reachable :
  reachable (run_calls [CallSet 3; CallSet 7] (BitVector.ctor 10)).
Proof.
  apply reachable_run_calls.
  - apply reachable_ctor. by vm_compute.
  - repeat constructor; by vm_compute.
  - repeat constructor; by vm_compute.
Qed.

Lemma count_after_update f pos v v' :
  wf v -> 0 <= pos < num_bits v -> updates f pos v v' ->
  BitVector.count v'
  = (Returns (set_positions v - Z.b2z (get_bit v pos)
              + Z.b2z (f (get_bit v pos))), v').
Proof.
  intros Hwf Hpos Hupd. pose proof Hwf as [_ Hlen].
  rewrite count_spec by (by eapply updates_wf).
  by rewrite (set_positions_updates f pos v v').
Qed.

Lemma get_bit_outside v q :
  8 * Z.of_nat (length (data v)) <= q -> get_bit v q = false.
Proof.
  intros Hq. unfold get_bit, BitVector.BITS_PER_BYTE.
  by rewrite (proj2 (lookup_ge_None _ _)) by lia.
Qed.

(** ** Further properties of the interface *)

(** X1. For every capacity of at most [SIZE_MAX - 7] the constructor gives
    an object of that size whose buffer has exactly the units the capacity
    needs (the least [n] with [8 * n >= size]), all of them 0, on which
    [test] returns false at every position. *)
Theorem ctor_below_wrap (size : Z) :
  0 <= size <= SIZE_MAX - 7 ->
  let v := BitVector.ctor size in
  BitVector.size v = (Returns size, v)
  /\ 8 * (Z.of_nat (length (data v)) - 1) < size <= 8 * Z.of_nat (length (data v))
  /\ Forall (eq 0) (data v)
  /\ forall pos, 0 <= pos < size -> BitVector.test pos v = (Returns false, v).
Proof.
  intros Hs v; subst v. split; [done|]. split; [|split].
  - apply ceil_div_spec. symmetry. by apply ctor_storage.
  - apply Forall_replicate_eq.
  - intros pos Hpos. rewrite test_spec; [by rewrite ctor_get_bit | | done].
    by apply ctor_invariant.
Qed.

Lemma ctor_below_wrap_witness :
  let v := BitVector.ctor 10 in
  BitVector.size v = (Returns 10, v)
  /\ 8 * (Z.of_nat (length (data v)) - 1) < 10 <= 8 * Z.of_nat (length (data v))
  /\ Forall (eq 0) (data v)
  /\ forall pos, 0 <= pos < 10 -> BitVector.test pos v = (Returns false, v).
Proof. apply (ctor_below_wrap 10). by vm_compute. Defined.

(** X2. For each of the seven largest values of [size_t] the constructor
    leaves the buffer empty, and [set], [clear], [toggle] and [test] at any
    position below the capacity index outside it. *)
Theorem ctor_wrap_window (size pos : Z) :
  SIZE_MAX - 7 < size <= SIZE_MAX -> 0 <= pos < size ->
  let v := BitVector.ctor size in
  data v = []
  /\ BitVector.set pos v = (Undefined, v)
  /\ BitVector.clear pos v = (Undefined, v)
  /\ BitVector.toggle pos v = (Undefined, v)
  /\ BitVector.test pos v = (Undefined, v).
Proof.
  intros Hs Hp v. split; [by apply ctor_wraps | by apply wrapped_undefined].
Qed.

Lemma ctor_wrap_window_witness :
  let v := BitVector.ctor (SIZE_MAX - 3) in
  data v = []
  /\ BitVector.set 5 v = (Undefined, v)
  /\ BitVector.clear 5 v = (Undefined, v)
  /\ BitVector.toggle 5 v = (Undefined, v)
  /\ BitVector.test 5 v = (Undefined, v).
Proof. apply (ctor_wrap_window (SIZE_MAX - 3) 5); by vm_compute. Defined.

(** X3. A freshly constructed vector whose capacity a string can hold
    counts 0 set bits and reads as a text of ['0'] only. *)
Theorem fresh_vector_reads_zero (size : Z) :
  0 <= size <= STRING_MAX_SIZE ->
  let v := BitVector.ctor size in
  BitVector.count v = (Returns 0, v)
  /\ exists s,
       BitVector.to_string v = (Returns s, v)
       /\ Z.of_nat (String.length s) = size
       /\ forall i, 0 <= i < size -> String.get (Z.to_nat i) s = Some "0"%char.
Proof.
  intros Hs v. pose proof STRING_MAX_SIZE_bound as Hb.
  assert (Hinv : invariant v) by (apply ctor_invariant; lia).
  destruct Hinv as [Hwf _]. pose proof Hwf as [_ Hlen].
  assert (Hzero : forall i, 0 <= i < size -> test_true v i = false).
  { intros i Hi. rewrite test_true_get_bit by done. apply ctor_get_bit. }
  split.
  - rewrite count_spec by done. unfold set_positions.
    rewrite filter_none; [done|].
    intros q Hq. apply elem_of_seqZ in Hq. apply Hzero.
    change (num_bits v) with size in Hq. lia.
  - destruct (to_string_spec v Hwf) as (s & Hrun & Hl & Hget); [by apply Hs|].
    exists s. repeat split; [done | done |].
    intros i Hi. by rewrite Hget, Hzero.
Qed.

Lemma fresh_vector_reads_zero_witness :
  let v := BitVector.ctor 10 in
  BitVector.count v = (Returns 0, v)
  /\ exists s,
       BitVector.to_string v = (Returns s, v)
       /\ Z.of_nat (String.length s) = 10
       /\ forall i, 0 <= i < 10 -> String.get (Z.to_nat i) s = Some "0"%char.
Proof. apply (fresh_vector_reads_zero 10). by vm_compute. Defined.

(** X4. On every object built from a capacity of at most [SIZE_MAX - 7],
    [count] returns the number of positions at which [test] is true, a
    number between 0 and the capacity, and leaves the object as it was. *)
Theorem count_is_number_of_set_positions (v : bit_vector) :
  reachable v -> num_bits v <= SIZE_MAX - 7 ->
  BitVector.count v = (Returns (set_positions v), v)
  /\ 0 <= set_positions v <= num_bits v.
Proof.
  intros Hv Hcap. destruct (reachable_invariant v Hv Hcap) as [Hwf _].
  split; [by apply count_spec|].
  pose proof (set_positions_range v) as Hr.
  destruct Hwf as [[[H0 _] _] _]. lia.
Qed.

Lemma count_is_number_of_set_positions_witness :
  let v := run_calls [CallSet 3; CallSet 7] (BitVector.ctor 10) in
  BitVector.count v = (Returns (set_positions v), v)
  /\ 0 <= set_positions v <= num_bits v.
Proof.
  apply (count_is_number_of_set_positions _ sample_reachable). by vm_compute.
Defined.

(** X5. On every object built from a capacity of at most [SIZE_MAX - 7] and
    at every position of it: after [set], [test] returns true; after a
    following [clear], [test] returns false. *)
Theorem set_then_clear_observed (v : bit_vector) (pos : Z) :
  reachable v -> num_bits v <= SIZE_MAX - 7 -> 0 <= pos < num_bits v ->
  exists v1 v2,
    BitVector.set pos v = (Returns tt, v1)
    /\ BitVector.test pos v1 = (Returns true, v1)
    /\ BitVector.clear pos v1 = (Returns tt, v2)
    /\ BitVector.test pos v2 = (Returns false, v2).
Proof.
  intros Hv Hcap Hpos. destruct (reachable_invariant v Hv Hcap) as [Hwf _].
  by apply set_clear_test.
Qed.

Lemma set_then_clear_observed_witness :
  let v := run_calls [CallSet 3; CallSet 7] (BitVector.ctor 10) in
  exists v1 v2,
    BitVector.set 4 v = (Returns tt, v1)
    /\ BitVector.test 4 v1 = (Returns true, v1)
    /\ BitVector.clear 4 v1 = (Returns tt, v2)
    /\ BitVector.test 4 v2 = (Returns false, v2).
Proof.
  apply (set_then_clear_observed _ 4 sample_reachable); by vm_compute.
Defined.

(** X6. [set] at a position where [test] returns true, and [clear] at a
    position where it returns false, leave the whole object as it was. *)
Theorem set_clear_change_nothing (v : bit_vector) (pos : Z) :
  reachable v -> num_bits v <= SIZE_MAX - 7 -> 0 <= pos < num_bits v ->
  (BitVector.test pos v = (Returns true, v) ->
   BitVector.set pos v = (Returns tt, v))
  /\ (BitVector.test pos v = (Returns false, v) ->
      BitVector.clear pos v = (Returns tt, v)).
Proof.
  intros Hv Hcap Hpos. destruct (reachable_invariant v Hv Hcap) as [Hwf _].
  pose proof Hwf as [_ Hlen].
  destruct (set_clear_idempotent v pos Hwf Hpos) as [Hs Hc].
  rewrite test_spec by done.
  split; intros Ht; [apply Hs | apply Hc]; congruence.
Qed.

Lemma set_clear_change_nothing_witness :
  let v := run_calls [CallSet 3; CallSet 7] (BitVector.ctor 10) in
  (BitVector.test 3 v = (Returns true, v) ->
   BitVector.set 3 v = (Returns tt, v))
  /\ (BitVector.test 3 v = (Returns false, v) ->
      BitVector.clear 3 v = (Returns tt, v)).
Proof.
  apply (set_clear_change_nothing _ 3 sample_reachable); by vm_compute.
Defined.

(** X7. One [toggle] negates what [test] returns at its position, and a
    second [toggle] at the same position gives back the original object,
    byte for byte. *)
Theorem toggle_twice_restores (v : bit_vector) (pos : Z) :
  reachable v -> num_bits v <= SIZE_MAX - 7 -> 0 <= pos < num_bits v ->
  exists b v1,
    BitVector.test pos v = (Returns b, v)
    /\ BitVector.toggle pos v = (Returns tt, v1)
    /\ BitVector.test pos v1 = (Returns (negb b), v1)
    /\ BitVector.toggle pos v1 = (Returns tt, v).
Proof.
  intros Hv Hcap Hpos. destruct (reachable_invariant v Hv Hcap) as [Hwf _].
  destruct (toggle_involutive v pos Hwf Hpos) as (v1 & H1 & H2 & H3 & H4).
  by exists (get_bit v pos), v1.
Qed.

Lemma toggle_twice_restores_witness :
  let v := run_calls [CallSet 3; CallSet 7] (BitVector.ctor 10) in
  exists b v1,
    BitVector.test 7 v = (Returns b, v)
    /\ BitVector.toggle 7 v = (Returns tt, v1)
    /\ BitVector.test 7 v1 = (Returns (negb b), v1)
    /\ BitVector.toggle 7 v1 = (Returns tt, v).
Proof.
  apply (toggle_twice_restores _ 7 sample_reachable); by vm_compute.
Defined.

(** X8. A mutator at one position leaves what [test] returns at every other
    position as it was. *)
Theorem mutators_keep_other_positions m f (v : bit_vector) (pos q : Z) :
  mutator m f ->
  reachable v -> num_bits v <= SIZE_MAX - 7 ->
  0 <= pos < num_bits v -> 0 <= q < num_bits v -> q <> pos ->
  exists b v',
    m pos v = (Returns tt, v')
    /\ BitVector.test q v = (Returns b, v)
    /\ BitVector.test q v' = (Returns b, v').
Proof.
  intros Hm Hv Hcap Hpos Hq Hne.
  destruct (reachable_invariant v Hv Hcap) as [[_ Hlen] _].
  destruct (mutator_spec m f v pos Hm Hlen Hpos) as (v' & Hrun & Hupd).
  exists (get_bit v q), v'. split; [done|]. split; [by apply test_spec|].
  rewrite (updates_test _ _ _ _ q Hupd) by done.
  by destruct (Z.eqb_spec q pos).
Qed.

Lemma mutators_keep_other_positions_witness :
  let v := run_calls [CallSet 3; CallSet 7] (BitVector.ctor 10) in
  exists b v',
    BitVector.toggle 3 v = (Returns tt, v')
    /\ BitVector.test 7 v = (Returns b, v)
    /\ BitVector.test 7 v' = (Returns b, v').
Proof.
  apply (mutators_keep_other_positions _ _ _ 3 7 mutator_toggle sample_reachable);
    by vm_compute.
Defined.

(** X9. [count] follows the mutators: where [test] returned [b] and [count]
    returned [c], after [set] it returns [c] or [c + 1], after [clear] [c - 1]
    or [c], after [toggle] [c - 1] or [c + 1], according to [b]. *)
Theorem count_after_mutators (v : bit_vector) (pos : Z) :
  reachable v -> num_bits v <= SIZE_MAX - 7 -> 0 <= pos < num_bits v ->
  exists c b vs vc vt,
    BitVector.count v = (Returns c, v)
    /\ BitVector.test pos v = (Returns b, v)
    /\ BitVector.set pos v = (Returns tt, vs)
    /\ BitVector.count vs = (Returns (if b then c else c + 1), vs)
    /\ BitVector.clear pos v = (Returns tt, vc)
    /\ BitVector.count vc = (Returns (if b then c - 1 else c), vc)
    /\ BitVector.toggle pos v = (Returns tt, vt)
    /\ BitVector.count vt = (Returns (if b then c - 1 else c + 1), vt).
Proof.
  intros Hv Hcap Hpos. destruct (reachable_invariant v Hv Hcap) as [Hwf _].
  pose proof Hwf as [_ Hlen].
  destruct (set_spec v pos Hlen Hpos) as (vs & Hs & Hus).
  destruct (clear_spec v pos Hlen Hpos) as (vc & Hc & Huc).
  destruct (toggle_spec v pos Hlen Hpos) as (vt & Ht & Hut).
  exists (set_positions v), (get_bit v pos), vs, vc, vt.
  rewrite count_spec, test_spec by done.
  rewrite (count_after_update _ pos v vs Hwf Hpos Hus).
  rewrite (count_after_update _ pos v vc Hwf Hpos Huc).
  rewrite (count_after_update _ pos v vt Hwf Hpos Hut).
  repeat split; try done;
    destruct (get_bit v pos); cbn [Z.b2z negb]; do 2 f_equal; lia.
Qed.

Lemma count_after_mutators_witness :
  let v := run_calls [CallSet 3; CallSet 7] (BitVector.ctor 10) in
  exists c b vs vc vt,
    BitVector.count v = (Returns c, v)
    /\ BitVector.test 3 v = (Returns b, v)
    /\ BitVector.set 3 v = (Returns tt, vs)
    /\ BitVector.count vs = (Returns (if b then c else c + 1), vs)
    /\ BitVector.clear 3 v = (Returns tt, vc)
    /\ BitVector.count vc = (Returns (if b then c - 1 else c), vc)
    /\ BitVector.toggle 3 v = (Returns tt, vt)
    /\ BitVector.count vt = (Returns (if b then c - 1 else c + 1), vt).
Proof.
  apply (count_after_mutators _ 3 sample_reachable); by vm_compute.
Defined.

(** X10. [count] and [to_string] agree: the number [count] returns is the
    number of ['1'] characters of the text [to_string] returns. *)
Theorem count_matches_text (v : bit_vector) :
  reachable v -> num_bits v <= STRING_MAX_SIZE ->
  exists s c,
    BitVector.to_string v = (Returns s, v)
    /\ BitVector.count v = (Returns c, v)
    /\ ones s = c.
Proof.
  intros Hv Hmax. pose proof STRING_MAX_SIZE_bound as Hb.
  destruct (reachable_invariant v Hv) as [Hwf _]; [lia|].
  pose proof Hwf as [[[H0 _] _] _].
  exists (digits v (Z.to_nat (num_bits v)) 0), (set_positions v).
  split; [by apply to_string_digits|]. split; [by apply count_spec|].
  rewrite ones_digits. unfold set_positions. by rewrite Z2Nat.id.
Qed.

Lemma count_matches_text_witness :
  let v := run_calls [CallSet 3; CallSet 7] (BitVector.ctor 10) in
  exists s c,
    BitVector.to_string v = (Returns s, v)
    /\ BitVector.count v = (Returns c, v)
    /\ ones s = c.
Proof. apply (count_matches_text _ sample_reachable). by vm_compute. Defined.

(** X11. The text determines the vector: two objects, each built from a
    capacity a string can hold, for which [to_string] returns the same text
    are equal (same capacity, same buffer). *)
Theorem text_determines_vector (v v' : bit_vector) :
  reachable v -> reachable v' ->
  num_bits v <= STRING_MAX_SIZE -> num_bits v' <= STRING_MAX_SIZE ->
  fst (BitVector.to_string v) = fst (BitVector.to_string v') ->
  v = v'.
Proof.
  intros Hv Hv' Hmax Hmax' Htext. pose proof STRING_MAX_SIZE_bound as Hb.
  destruct (reachable_invariant v Hv) as [Hwf Hpad]; [lia|].
  destruct (reachable_invariant v' Hv') as [Hwf' Hpad']; [lia|].
  rewrite !to_string_digits in Htext by done. cbn [fst] in Htext.
  injection Htext as Hdig.
  destruct Hwf as [[[H0 _] Hd] Hlen], Hwf' as [[[H0' _] Hd'] Hlen'].
  assert (Hn : num_bits v = num_bits v').
  { apply (f_equal String.length) in Hdig. rewrite !digits_length in Hdig. lia. }
  assert (Hl : length (data v) = length (data v')).
  { unfold storage_ok in *. rewrite Hn in Hlen. lia. }
  apply state_ext; [done | done | congruence | congruence |].
  intros q Hq.
  destruct (Z.lt_ge_cases q (num_bits v)) as [Hin|Hout].
  - rewrite <- !test_true_get_bit by (done || lia).
    apply (f_equal (String.get (Z.to_nat q))) in Hdig.
    rewrite !digits_get, !Z.add_0_l, !Z2Nat.id in Hdig by lia.
    by destruct (test_true v q), (test_true v' q).
  - destruct (Z.lt_ge_cases q (8 * Z.of_nat (length (data v)))) as [Hp|Hp].
    + rewrite Hpad by lia. rewrite Hpad' by lia. done.
    + rewrite !get_bit_outside by lia. done.
Qed.

Lemma text_determines_vector_witness :
  run_calls [CallSet 3; CallSet 7] (BitVector.ctor 10)
  = run_calls [CallSet 7; CallToggle 5; CallSet 3; CallToggle 5]
      (BitVector.ctor 10).
Proof.
  apply (text_determines_vector _ _ sample_reachable); try (by vm_compute).
  apply reachable_run_calls.
  - apply reachable_ctor. by vm_compute.
  - repeat constructor; by vm_compute.
  - repeat constructor; by vm_compute.
Defined.

(** X12. Mutators at distinct positions commute: both orders succeed and
    leave the same object. *)
Theorem mutators_commute m1 f1 m2 f2 (v : bit_vector) (p q : Z) :
  mutator m1 f1 -> mutator m2 f2 ->
  reachable v -> num_bits v <= SIZE_MAX - 7 ->
  0 <= p < num_bits v -> 0 <= q < num_bits v -> p <> q ->
  exists v1 v2 v12,
    m1 p v = (Returns tt, v1) /\ m2 q v1 = (Returns tt, v12)
    /\ m2 q v = (Returns tt, v2) /\ m1 p v2 = (Returns tt, v12).
Proof.
  intros Hm1 Hm2 Hv Hcap Hp Hq Hne.
  destruct (reachable_invariant v Hv Hcap) as [[[_ Hd] Hlen] _].
  destruct (mutator_spec m1 f1 v p Hm1 Hlen Hp) as (v1 & H1 & Hu1).
  destruct (mutator_spec m2 f2 v q Hm2 Hlen Hq) as (v2 & H2 & Hu2).
  pose proof (updates_storage _ _ _ _ Hu1 Hlen) as Hlen1.
  pose proof (updates_storage _ _ _ _ Hu2 Hlen) as Hlen2.
  pose proof Hu1 as (Hn1 & _). pose proof Hu2 as (Hn2 & _).
  destruct (mutator_spec m2 f2 v1 q Hm2 Hlen1) as (v12 & H12 & Hu12);
    [by rewrite Hn1|].
  destruct (mutator_spec m1 f1 v2 p Hm1 Hlen2) as (v21 & H21 & Hu21);
    [by rewrite Hn2|].
  exists v1, v2, v12. repeat split; try done.
  rewrite H21. f_equal.
  apply (updates_commute f1 f2 p q v v1 v12 v2 v21); (done || lia).
Qed.

Lemma mutators_commute_witness :
  let v := run_calls [CallSet 3; CallSet 7] (BitVector.ctor 10) in
  exists v1 v2 v12,
    BitVector.clear 3 v = (Returns tt, v1)
    /\ BitVector.toggle 4 v1 = (Returns tt, v12)
    /\ BitVector.toggle 4 v = (Returns tt, v2)
    /\ BitVector.clear 3 v2 = (Returns tt, v12).
Proof.
  apply (mutators_commute _ _ _ _ _ 3 4 mutator_clear mutator_toggle
           sample_reachable); by vm_compute.
Defined.

(** X13. At one position the last write wins: [clear] after [set] leaves the
    object [clear] alone leaves, [set] after [clear] the object [set] alone
    leaves, and repeating [set] or [clear] changes nothing more. *)
Theorem last_write_wins (v : bit_vector) (pos : Z) :
  reachable v -> num_bits v <= SIZE_MAX - 7 -> 0 <= pos < num_bits v ->
  exists vs vc,
    BitVector.set pos v = (Returns tt, vs)
    /\ BitVector.clear pos v = (Returns tt, vc)
    /\ BitVector.clear pos vs = (Returns tt, vc)
    /\ BitVector.set pos vc = (Returns tt, vs)
    /\ BitVector.set pos vs = (Returns tt, vs)
    /\ BitVector.clear pos vc = (Returns tt, vc).
Proof.
  intros Hv Hcap Hpos.
  destruct (reachable_invariant v Hv Hcap) as [[[_ Hd] Hlen] _].
  destruct (set_spec v pos Hlen Hpos) as (vs & Hs & Hus).
  destruct (clear_spec v pos Hlen Hpos) as (vc & Hc & Huc).
  pose proof (updates_storage _ _ _ _ Hus Hlen) as Hlens.
  pose proof (updates_storage _ _ _ _ Huc Hlen) as Hlenc.
  pose proof Hus as (Hns & _). pose proof Huc as (Hnc & _).
  assert (Hps : 0 <= pos < num_bits vs) by (by rewrite Hns).
  assert (Hpc : 0 <= pos < num_bits vc) by (by rewrite Hnc).
  destruct (clear_spec vs pos Hlens Hps) as (vsc & Hsc & Husc).
  destruct (set_spec vc pos Hlenc Hpc) as (vcs & Hcs & Hucs).
  destruct (set_spec vs pos Hlens Hps) as (vss & Hss & Huss).
  destruct (clear_spec vc pos Hlenc Hpc) as (vcc & Hcc & Hucc).
  assert (H0 : 0 <= pos) by lia.
  exists vs, vc. split; [done|]. split; [done|].
  rewrite Hsc, Hcs, Hss, Hcc. repeat split; f_equal.
  - eapply (updates_unique _ _ pos v); [done | | done | done].
    exact (updates_compose _ _ pos v vs vsc H0 Hus Husc).
  - eapply (updates_unique _ _ pos v); [done | | done | done].
    exact (updates_compose _ _ pos v vc vcs H0 Huc Hucs).
  - eapply (updates_unique _ _ pos v); [done | | done | done].
    exact (updates_compose _ _ pos v vs vss H0 Hus Huss).
  - eapply (updates_unique _ _ pos v); [done | | done | done].
    exact (updates_compose _ _ pos v vc vcc H0 Huc Hucc).
Qed.

Lemma last_write_wins_witness :
  let v := run_calls [CallSet 3; CallSet 7] (BitVector.ctor 10) in
  exists vs vc,
    BitVector.set 5 v = (Returns tt, vs)
    /\ BitVector.clear 5 v = (Returns tt, vc)
    /\ BitVector.clear 5 vs = (Returns tt, vc)
    /\ BitVector.set 5 vc = (Returns tt, vs)
    /\ BitVector.set 5 vs = (Returns tt, vs)
    /\ BitVector.clear 5 vc = (Returns tt, vc).
Proof. apply (last_write_wins _ 5 sample_reachable); by vm_compute. Defined.

(** X14. [toggle] is [clear] where [test] returns true and [set] where it
    returns false: the same outcome and the same object. *)
Theorem toggle_is_set_or_clear (v : bit_vector) (pos : Z) :
  reachable v -> num_bits v <= SIZE_MAX - 7 -> 0 <= pos < num_bits v ->
  exists b,
    BitVector.test pos v = (Returns b, v)
    /\ BitVector.toggle pos v
       = if b then BitVector.clear pos v else BitVector.set pos v.
Proof.
  intros Hv Hcap Hpos.
  destruct (reachable_invariant v Hv Hcap) as [[[_ Hd] Hlen] _].
  destruct (set_spec v pos Hlen Hpos) as (vs & Hs & Hus).
  destruct (clear_spec v pos Hlen Hpos) as (vc & Hc & Huc).
  destruct (toggle_spec v pos Hlen Hpos) as (vt & Ht & Hut).
  exists (get_bit v pos). split; [by apply test_spec|].
  rewrite Ht, Hs, Hc.
  destruct (get_bit v pos) eqn:Hb; f_equal.
  - apply (updates_unique negb (fun _ => false) pos v); try done. by rewrite Hb.
  - apply (updates_unique negb (fun _ => true) pos v); try done. by rewrite Hb.
Qed.

Lemma toggle_is_set_or_clear_witness :
  let v := run_calls [CallSet 3; CallSet 7] (BitVector.ctor 10) in
  exists b,
    BitVector.test 7 v = (Returns b, v)
    /\ BitVector.toggle 7 v
       = if b then BitVector.clear 7 v else BitVector.set 7 v.
Proof.
  apply (toggle_is_set_or_clear _ 7 sample_reachable); by vm_compute.
Defined.

(** X15. The layout: at a position below the capacity [test] returns bit
    [pos mod 8] (bit 0 the least significant) of the byte at index [pos / 8],
    and has undefined behaviour if the buffer has no such byte. *)
Theorem test_reads_packed_bit (v : bit_vector) (pos : Z) :
  0 <= pos < num_bits v ->
  BitVector.test pos v
  = match data v !! Z.to_nat (pos / 8) with
    | Some b => (Returns (Z.testbit b (pos mod 8)), v)
    | None => (Undefined, v)
    end.
Proof.
  intros Hpos. unfold_method.
  destruct (Z.geb_spec pos (num_bits v)); [lia|].
  change BitVector.BITS_PER_BYTE with 8.
  destruct (data v !! Z.to_nat (pos / 8)); [|done].
  by rewrite test_mask.
Qed.

Lemma test_reads_packed_bit_witness :
  let v := mk_bit_vector [0; 2] 10 in
  BitVector.test 9 v
  = match data v !! Z.to_nat (9 / 8) with
    | Some b => (Returns (Z.testbit b (9 mod 8)), v)
    | None => (Undefined, v)
    end.
Proof. apply (test_reads_packed_bit (mk_bit_vector [0; 2] 10) 9). by vm_compute. Defined.

(** X16. No update loses information or overflows: for a byte [b] of the
    buffer the three values the mutators compute as [int] lie in [0, 255], so
    the conversion back to [unsigned char] changes nothing, and the
    complemented mask lies in [-129, -2]. *)
Theorem stores_never_truncate (b pos : Z) :
  is_uchar b ->
  to_uchar (Z.lor b (BitVector.mask pos)) = Z.lor b (BitVector.mask pos)
  /\ to_uchar (Z.land b (Z.lnot (BitVector.mask pos)))
     = Z.land b (Z.lnot (BitVector.mask pos))
  /\ to_uchar (Z.lxor b (BitVector.mask pos)) = Z.lxor b (BitVector.mask pos)
  /\ -129 <= Z.lnot (BitVector.mask pos) <= -2.
Proof.
  intros Hb. destruct (int_intermediates b pos Hb) as (H1 & H2 & H3 & H4).
  unfold to_uchar. rewrite !Z.mod_small by lia. done.
Qed.

Lemma stores_never_truncate_witness :
  to_uchar (Z.lor 136 (BitVector.mask 12)) = Z.lor 136 (BitVector.mask 12)
  /\ to_uchar (Z.land 136 (Z.lnot (BitVector.mask 12)))
     = Z.land 136 (Z.lnot (BitVector.mask 12))
  /\ to_uchar (Z.lxor 136 (BitVector.mask 12)) = Z.lxor 136 (BitVector.mask 12)
  /\ -129 <= Z.lnot (BitVector.mask 12) <= -2.
Proof. apply (stores_never_truncate 136 12). by vm_compute. Defined.

(** X17. Every object built from a capacity of at most [SIZE_MAX - 7], by
    the constructor and any calls, has a buffer of exactly the units its
    capacity needs, holds only [unsigned char] values, and has 0 in every
    bit of the last unit past the capacity. *)
Theorem reachable_objects_keep_invariants (v : bit_vector) :
  reachable v -> num_bits v <= SIZE_MAX - 7 ->
  8 * (Z.of_nat (length (data v)) - 1) < num_bits v
    <= 8 * Z.of_nat (length (data v))
  /\ Forall is_uchar (data v)
  /\ forall p, num_bits v <= p < 8 * Z.of_nat (length (data v)) ->
       get_bit v p = false.
Proof.
  intros Hv Hcap.
  destruct (reachable_invariant v Hv Hcap) as [[[_ Hd] Hlen] Hpad].
  split; [|by split]. apply ceil_div_spec. by symmetry.
Qed.

Lemma reachable_objects_keep_invariants_witness :
  let v := run_calls [CallSet 3; CallSet 7] (BitVector.ctor 10) in
  8 * (Z.of_nat (length (data v)) - 1) < num_bits v
    <= 8 * Z.of_nat (length (data v))
  /\ Forall is_uchar (data v)
  /\ forall p, num_bits v <= p < 8 * Z.of_nat (length (data v)) ->
       get_bit v p = false.
Proof.
  apply (reachable_objects_keep_invariants _ sample_reachable). by vm_compute.
Defined.

(** X18. No call resizes: in every state and for every sequence of calls
    none of which has undefined behaviour, whatever their arguments and
    whether they return or throw, the capacity and the number of storage
    units after the sequence are those before it; and a [test], [size],
    [count] or [to_string] call that returns or throws leaves the whole
    object as it was. *)
Theorem calls_never_resize (v : bit_vector) (cs : list call) :
  Forall (fun o => o <> Undefined) (outcomes cs v) ->
  num_bits (run_calls cs v) = num_bits v
  /\ length (data (run_calls cs v)) = length (data v)
  /\ forall c,
       fst (run_call c v) <> Undefined ->
       match c with
       | CallTest _ | CallSize | CallCount | CallToString =>
           snd (run_call c v) = v
       | CallSet _ | CallClear _ | CallToggle _ => True
       end.
Proof.
  intros Hdef. split; [|split].
  - revert v Hdef. induction cs as [|c cs IH]; intros v Hdef; [done|].
    cbn [run_calls outcomes] in *. apply Forall_cons in Hdef as [_ Hdef].
    rewrite IH by done. apply run_call_shape.
  - revert v Hdef. induction cs as [|c cs IH]; intros v Hdef; [done|].
    cbn [run_calls outcomes] in *. apply Forall_cons in Hdef as [_ Hdef].
    rewrite IH by done. apply run_call_shape.
  - intros c _. pose proof (run_call_state c v) as H. by destruct c.
Qed.

Lemma calls_never_resize_witness :
  let v := BitVector.ctor 10 in
  let cs := [CallSet 3; CallSet 10; CallTest 12; CallToggle 9; CallCount;
             CallClear 3; CallToString] in
  Forall (fun o => o <> Undefined) (outcomes cs v)
  /\ num_bits (run_calls cs v) = num_bits v
  /\ length (data (run_calls cs v)) = length (data v)
  /\ forall c,
       fst (run_call c v) <> Undefined ->
       match c with
       | CallTest _ | CallSize | CallCount | CallToString =>
           snd (run_call c v) = v
       | CallSet _ | CallClear _ | CallToggle _ => True
       end.
Proof.
  intros v cs.
  assert (Hdef : Forall (fun o => o <> Undefined) (outcomes cs v))
    by (repeat constructor; by vm_compute).
  split; [exact Hdef | exact (calls_never_resize v cs Hdef)].
Defined.

(** X19. On every reachable object whose capacity is at most the maximum
    length of a string, a mutator changes the text at one index only: after
    it, [to_string] returns the text it returned before except at index
    [pos], where the character is the digit of the new bit. *)
Theorem text_after_mutator m f (v : bit_vector) (pos : Z) :
  mutator m f ->
  reachable v -> num_bits v <= STRING_MAX_SIZE -> 0 <= pos < num_bits v ->
  exists b s s' v',
    BitVector.test pos v = (Returns b, v)
    /\ BitVector.to_string v = (Returns s, v)
    /\ m pos v = (Returns tt, v')
    /\ BitVector.to_string v' = (Returns s', v')
    /\ String.length s' = String.length s
    /\ forall i, 0 <= i < num_bits v ->
         String.get (Z.to_nat i) s'
         = if i =? pos then Some (if f b then "1"%char else "0"%char)
           else String.get (Z.to_nat i) s.
Proof.
  intros Hm Hv Hmax Hpos. pose proof STRING_MAX_SIZE_bound as Hb.
  destruct (reachable_invariant v Hv) as [Hwf _]; [lia|].
  pose proof Hwf as [_ Hlen].
  destruct (mutator_spec m f v pos Hm Hlen Hpos) as (v' & Hrun & Hupd).
  pose proof (updates_wf _ _ _ _ Hupd Hwf) as Hwf'.
  pose proof Hwf' as [_ Hlen'].
  pose proof Hupd as (Hn & _ & _ & Hbits).
  destruct (to_string_spec v Hwf Hmax) as (s & Hs & Hl & Hget).
  destruct (to_string_spec v' Hwf') as (s' & Hs' & Hl' & Hget'); [by rewrite Hn|].
  exists (get_bit v pos), s, s', v'.
  split; [by apply test_spec|]. do 3 (split; [done|]).
  split; [lia|].
  intros i Hi. rewrite Hget' by (by rewrite Hn).
  rewrite test_true_get_bit by (done || by rewrite Hn).
  rewrite Hbits by lia.
  destruct (Z.eqb_spec i pos) as [->|Hne]; [done|].
  by rewrite Hget, test_true_get_bit.
Qed.

Lemma text_after_mutator_witness :
  let v := run_calls [CallSet 3; CallSet 7] (BitVector.ctor 10) in
  exists b s s' v',
    BitVector.test 3 v = (Returns b, v)
    /\ BitVector.to_string v = (Returns s, v)
    /\ BitVector.toggle 3 v = (Returns tt, v')
    /\ BitVector.to_string v' = (Returns s', v')
    /\ String.length s' = String.length s
    /\ forall i, 0 <= i < num_bits v ->
         String.get (Z.to_nat i) s'
         = if i =? 3 then Some (if negb b then "1"%char else "0"%char)
           else String.get (Z.to_nat i) s.
Proof.
  apply (text_after_mutator _ _ _ 3 mutator_toggle sample_reachable);
    by vm_compute.
Defined.
